(** * Util / Network / NetworkTCP.cpp : TCPConnection and TCPServer

    A shallow embedding of the asynchronous TCP endpoints of the Util
    library.  The byte queues and the functions that callers run on them
    are pure functions on a connection record; the worker thread of an
    endpoint is a labelled transition system whose labels carry what the
    operating system answered to the system call made at that point. *)

From Stdlib Require Import ZArith Lia Strings.String Strings.Byte.
From stdpp Require Import base tactics option list gmap.

Local Open Scope Z_scope.

(** ** Machine integers *)

(** [size_t] on the 64-bit targets of the library: arithmetic is modulo
    [2^64]. *)
Definition SIZE_MODULUS : Z := 2 ^ 64.
Definition size_t_wrap (z : Z) : Z := z mod SIZE_MODULUS.
Definition size_t_add (a b : Z) : Z := size_t_wrap (a + b).
Definition size_t_sub (a b : Z) : Z := size_t_wrap (a - b).

(** [int]: 32 bits, two's complement.  [int_of_size_t] is the narrowing
    conversion of [const int len = data.size()]. *)
Definition INT_MAX : Z := 2 ^ 31 - 1.
Definition int_of_size_t (z : Z) : Z := (z + 2 ^ 31) mod 2 ^ 32 - 2 ^ 31.

(** ** Data model *)

(** [uint8_t] *)
Abbreviation uint8_t := Byte.byte.

#[global] Instance uint8_t_eq_dec : EqDecision uint8_t := Byte.byte_eq_dec.

(** [std::vector<uint8_t>]: one element of a queue. *)
Definition chunk : Type := list uint8_t.

(** [std::vector::size()], a [size_t]. *)
Definition vsize {A} (v : list A) : Z := Z.of_nat (length v).

(** [enum state_t { OPEN, CLOSING, CLOSED }] *)
Inductive state_t : Type := OPEN | CLOSING | CLOSED.

#[global] Instance state_t_eq_dec : EqDecision state_t.
Proof. solve_decision. Defined.

(** [IPv4Address]: host and port.  *)
Record IPv4Address : Type := mkIPv4 { ip_host : Z; ip_port : Z }.

(** The fields of [TCPConnection] together with its [InternalData].  The
    [float] [lastActiveTime] is carried as an opaque clock reading: no
    arithmetic is done on it. *)
Record TCPConnection : Type := mkConn {
  remoteIp : IPv4Address;
  lastActiveTime : Z;
  tcpSocket : Z;
  state : state_t;
  inQueue : list chunk;
  inQueueDataSize : Z;
  outQueue : list chunk
}.

Definition set_state (st : state_t) (c : TCPConnection) : TCPConnection :=
  mkConn (remoteIp c) (lastActiveTime c) (tcpSocket c) st
         (inQueue c) (inQueueDataSize c) (outQueue c).
Definition set_inQueue (q : list chunk) (n : Z) (c : TCPConnection) : TCPConnection :=
  mkConn (remoteIp c) (lastActiveTime c) (tcpSocket c) (state c) q n (outQueue c).
Definition set_outQueue (q : list chunk) (c : TCPConnection) : TCPConnection :=
  mkConn (remoteIp c) (lastActiveTime c) (tcpSocket c) (state c)
         (inQueue c) (inQueueDataSize c) q.
Definition set_lastActiveTime (t : Z) (c : TCPConnection) : TCPConnection :=
  mkConn (remoteIp c) t (tcpSocket c) (state c)
         (inQueue c) (inQueueDataSize c) (outQueue c).
Definition set_tcpSocket (fd : Z) (c : TCPConnection) : TCPConnection :=
  mkConn (remoteIp c) (lastActiveTime c) fd (state c)
         (inQueue c) (inQueueDataSize c) (outQueue c).

(** The constructor: [state(OPEN)], [inQueueDataSize(0)], empty queues,
    [lastActiveTime(0)]. *)
Definition newTCPConnection (socket : Z) (address : IPv4Address) : TCPConnection :=
  mkConn address 0 socket OPEN [] 0 [].

(** Modelled from the spec: [isOpen], [mayBeOpen] and [setState] are
    declared in NetworkTCP.h, which is not part of the sources at hand.
    The spec has [is_open()] read [state] under the state lock,
    [may_be_open()] read it without the lock, and the state lock guard
    every write of [state]; [setState] stores its argument. *)
Definition isOpen (c : TCPConnection) : bool := bool_decide (state c = OPEN).
Definition mayBeOpen (c : TCPConnection) : bool := bool_decide (state c = OPEN).
Definition setState (st : state_t) (c : TCPConnection) : TCPConnection := set_state st c.

(** The bytes of a queue in the order they arrived. *)
Definition queue_bytes (q : list chunk) : list uint8_t := concat q.
Definition queue_size (q : list chunk) : Z := vsize (queue_bytes q).

(** ** Caller side: the receive queue *)

(** The [for] loop of [extractDataFromInQueue]:
    [for (it = begin; it != end && remainingBytes > 0; ++it)].  It returns
    the queue with the partially consumed element overwritten in place, the
    collected [data] and [packetsToRemove]. *)
Fixpoint extract_loop (q : list chunk) (remainingBytes : Z)
    (data : list uint8_t) (packetsToRemove : nat)
  : list chunk * list uint8_t * nat :=
  match q with
  | [] => ([], data, packetsToRemove)
  | it :: rest =>
    if bool_decide (remainingBytes > 0) then
      if bool_decide (remainingBytes >= vsize it) then
        (* take full packet *)
        let '(q', d, p) :=
          extract_loop rest (remainingBytes - vsize it) (data ++ it) (S packetsToRemove) in
        (it :: q', d, p)
      else
        (* only take remaining data *)
        let remainder := drop (Z.to_nat remainingBytes) it in
        let '(q', d, p) :=
          extract_loop rest 0 (data ++ take (Z.to_nat remainingBytes) it) packetsToRemove in
        (remainder :: q', d, p)
    else (q, data, packetsToRemove)
  end.

(** [for (; packetsToRemove > 0; --packetsToRemove) inQueue.pop_front();] *)
Fixpoint pop_front_n {A} (n : nat) (q : list A) : list A :=
  match n with
  | O => q
  | S n' => match q with [] => [] | _ :: rest => pop_front_n n' rest end
  end.

(** [TCPConnection::extractDataFromInQueue]; the caller holds the lock of
    the receive queue. *)
Definition extractDataFromInQueue (numBytes : Z) (c : TCPConnection)
  : list uint8_t * TCPConnection :=
  if bool_decide (inQueueDataSize c < numBytes) || bool_decide (numBytes = 0) then
    ([], c)
  else
    let '(q1, data, packetsToRemove) := extract_loop (inQueue c) numBytes [] 0 in
    let q2 :=
      if bool_decide (packetsToRemove = length q1) then []
      else pop_front_n packetsToRemove q1 in
    (data, set_inQueue q2 (size_t_sub (inQueueDataSize c) numBytes) c).

(** [receiveData()], [receiveData(numBytes)] and [receiveString] look at
    [inQueueDataSize] before they take the lock.  [hint] is what that
    unlocked read saw; the functions without [_hinted] are the calls that
    run undisturbed, where it is the counter itself. *)
Definition receiveData_all_hinted (hint : Z) (c : TCPConnection)
  : list uint8_t * TCPConnection :=
  if bool_decide (hint > 0) then extractDataFromInQueue (inQueueDataSize c) c
  else ([], c).

Definition receiveData_hinted (hint : Z) (numBytes : Z) (c : TCPConnection)
  : list uint8_t * TCPConnection :=
  if bool_decide (hint >= numBytes) then extractDataFromInQueue numBytes c
  else ([], c).

(** The two nested loops of [receiveString] that search the delimiter. *)
Fixpoint scan_package (delimiter : uint8_t) (package : chunk) (pos : Z) : Z * bool :=
  match package with
  | [] => (pos, false)
  | byteEntry :: rest =>
    if Byte.eqb byteEntry delimiter then (pos, true)
    else scan_package delimiter rest (size_t_add pos 1)
  end.

Fixpoint scan_queue (delimiter : uint8_t) (q : list chunk) (pos : Z) (found : bool)
  : Z * bool :=
  match q with
  | [] => (pos, found)
  | package :: rest =>
    if found then (pos, found)
    else
      let '(pos', found') := scan_package delimiter package pos in
      scan_queue delimiter rest pos' found'
  end.

Definition receiveString_hinted (hint : Z) (delimiter : uint8_t) (c : TCPConnection)
  : string * TCPConnection :=
  if bool_decide (hint = 0) then (EmptyString, c)
  else
    let '(pos, found) := scan_queue delimiter (inQueue c) 0 false in
    if found then
      let '(d, c') := extractDataFromInQueue (size_t_add pos 1) c in
      if bool_decide (d = []) then (EmptyString, c')
      else (string_of_list_byte d, c')
    else (EmptyString, c).

Definition receiveData_all (c : TCPConnection) :=
  receiveData_all_hinted (inQueueDataSize c) c.
Definition receiveData (numBytes : Z) (c : TCPConnection) :=
  receiveData_hinted (inQueueDataSize c) numBytes c.
Definition receiveString (delimiter : uint8_t) (c : TCPConnection) :=
  receiveString_hinted (inQueueDataSize c) delimiter c.

(** ** Caller side: the send queue *)

(** [TCPConnection::sendData] *)
Definition sendData (data : list uint8_t) (c : TCPConnection) : bool * TCPConnection :=
  if negb (isOpen c) then (false, c)
  else (true, set_outQueue (outQueue c ++ [data]) c).

(** [TCPConnection::sendString]:
    [sendData(std::vector<uint8_t>(s.begin(), s.end()))] *)
Definition sendString (s : string) (c : TCPConnection) : bool * TCPConnection :=
  sendData (list_byte_of_string s) c.

(** ** The invariant of the receive queue *)

(** [inQueueDataSize] is the number of bytes stored in [inQueue]; the
    second part says that this number is a value of [size_t], as the size
    of anything held in memory is. *)
Definition inQueue_inv (c : TCPConnection) : Prop :=
  inQueueDataSize c = queue_size (inQueue c) /\ queue_size (inQueue c) < SIZE_MODULUS.

(** What one run of the loop followed by the removal of the counted packets
    leaves: either whole chunks only were consumed, or the chunk at index
    [k] was cut at [r] bytes and stays in front with its suffix. *)
Inductive extraction_shape (q : list chunk) (n : Z) (q' : list chunk) : Prop :=
| shape_whole (k : nat) :
    queue_size (take k q) = n ->
    q' = drop k q ->
    extraction_shape q n q'
| shape_cut (k : nat) (it : chunk) (r : Z) :
    q !! k = Some it ->
    queue_size (take k q) + r = n ->
    0 < r < vsize it ->
    q' = drop (Z.to_nat r) it :: drop (S k) q ->
    extraction_shape q n q'.

(** ** The worker thread of a connection *)

(** The file has two implementations of the socket code, chosen at compile
    time by [UTIL_HAVE_LIB_SDL2_NET]. *)
Inductive backend : Type := SDL2_NET | POSIX.

Definition POLLIN : Z := 1.

(** What [WARN] is given. *)
Inductive warning : Type :=
| WARN_strerror (error : Z)
| WARN_text (msg : string).

(** What the outside answers to the call a step makes.  [error] is the
    value [errno] holds after the call.  [buffer] is the whole array
    [buffer[BUFFER_SIZE]] after the read; [BUFFER_SIZE] is declared in
    NetworkTCP.h and is the length of that array. *)
Inductive os_answer : Type :=
| OS_none
| OS_now (t : Z)
| OS_send (ret : Z) (error : Z)
| OS_poll (ret : Z) (revents : Z) (error : Z)
| OS_recv (ret : Z) (buffer : list uint8_t) (error : Z) (now : Z)
| OS_close (ret : Z) (error : Z)
| OS_accept (ret : Z) (addr : IPv4Address).

(** The places of [TCPConnection::run] between which other threads can be
    scheduled. *)
Inductive worker_pc : Type :=
| W_start                                   (* before the first locked block *)
| W_loop                                    (* [while (isOpen())], outer *)
| W_sleep                                   (* SDL: [Utils::sleep(1)], then [if(!outQueue.empty())] *)
| W_lock                                    (* the test before the send block held; its two locks come next *)
| W_drain                                   (* [while (!outQueue.empty())], both locks held *)
| W_recv_loop                               (* head of the receive loop *)
| W_poll                                    (* [poll] / [SDLNet_CheckSockets] *)
| W_recv                                    (* [recv] / [SDLNet_TCP_Recv] *)
| W_touch (buffer : list uint8_t) (bytesRecieved : Z)   (* SDL: [lastActiveTime = Timer::now()] *)
| W_append (buffer : list uint8_t) (bytesRecieved : Z)  (* the block under the lock of the receive queue *)
| W_cleanup                                 (* the block after the loop *)
| W_set_closed                              (* [setState(CLOSED)] *)
| W_done.                                   (* [run] has returned *)

#[global] Instance worker_pc_eq_dec : EqDecision worker_pc.
Proof. solve_decision. Defined.

(** The places of a thread inside [TCPConnection::close] (and inside the
    last two statements of [TCPServer::close], which are the same). *)
Inductive close_pc : Type :=
| C_set          (* [isOpen()] was true; [setState(CLOSING)] comes next *)
| C_active       (* [UserThread::isActive()] comes next *)
| C_join         (* [isActive()] was true; inside [UserThread::join()] *)
| C_returned.    (* [close] has returned *)

#[global] Instance close_pc_eq_dec : EqDecision close_pc.
Proof. solve_decision. Defined.

(** A connection, its worker, what the worker has logged, how often the
    socket was handed to [::close] / [SDLNet_TCP_Close], the threads that
    are inside [close()], and the threads that are inside [sendData]
    between its test [isOpen()] and its locked block, each with the
    [data] it was called with. *)
Record system : Type := mkSys {
  conn : TCPConnection;
  wpc : worker_pc;
  warnings : list warning;
  socket_closes : nat;
  callers : gmap nat close_pc;
  senders : gmap nat (list uint8_t)
}.

Definition with_conn (c : TCPConnection) (s : system) : system :=
  mkSys c (wpc s) (warnings s) (socket_closes s) (callers s) (senders s).
Definition with_wpc (pc : worker_pc) (s : system) : system :=
  mkSys (conn s) pc (warnings s) (socket_closes s) (callers s) (senders s).
Definition WARN (w : warning) (s : system) : system :=
  mkSys (conn s) (wpc s) (warnings s ++ [w]) (socket_closes s) (callers s) (senders s).
Definition count_socket_close (s : system) : system :=
  mkSys (conn s) (wpc s) (warnings s) (S (socket_closes s)) (callers s) (senders s).
Definition with_caller (tid : nat) (pc : close_pc) (s : system) : system :=
  mkSys (conn s) (wpc s) (warnings s) (socket_closes s) (<[tid := pc]> (callers s))
        (senders s).
Definition with_senders (m : gmap nat (list uint8_t)) (s : system) : system :=
  mkSys (conn s) (wpc s) (warnings s) (socket_closes s) (callers s) m.

(** The constructor ends with [UserThread::start()]. *)
Definition new_system (socket : Z) (address : IPv4Address) : system :=
  mkSys (newTCPConnection socket address) W_start [] 0 ∅ ∅.

(** One attempt of the send loop on the element at the front.  [warn]
    tells whether the backend logs the failure. *)
Definition drain_step (warn : bool) (a : os_answer) (s : system) : option system :=
  match outQueue (conn s) with
  | [] =>
    match a with
    | OS_none => Some (with_wpc W_recv_loop s)
    | _ => None
    end
  | data :: rest =>
    match a with
    | OS_send ret error =>
      let len := int_of_size_t (vsize data) in
      if bool_decide (ret < len) then
        let s1 := if warn then WARN (WARN_strerror error) s else s in
        Some (with_wpc W_recv_loop (with_conn (setState CLOSING (conn s1)) s1))
      else
        Some (with_conn (set_outQueue rest (conn s)) s)
    | _ => None
    end
  end.

(** [inQueue.emplace_back(buffer, buffer + bytesRecieved);
     inQueueDataSize += bytesRecieved;] *)
Definition append_received (buffer : list uint8_t) (bytesRecieved : Z)
    (c : TCPConnection) : TCPConnection :=
  set_inQueue (inQueue c ++ [take (Z.to_nat bytesRecieved) buffer])
              (size_t_add (inQueueDataSize c) bytesRecieved) c.

(** [TCPConnection::run], the part compiled without SDL2_net. *)
Definition worker_step_posix (a : os_answer) (s : system) : option system :=
  let c := conn s in
  match wpc s with
  | W_start =>
    match a with
    | OS_now t => Some (with_wpc W_loop (with_conn (set_lastActiveTime t c) s))
    | _ => None
    end
  | W_loop =>
    match a with
    | OS_none => Some (with_wpc (if isOpen c then W_lock else W_cleanup) s)
    | _ => None
    end
  | W_lock =>
    match a with
    | OS_none => Some (with_wpc W_drain s)
    | _ => None
    end
  | W_drain => drain_step true a s
  | W_recv_loop =>
    match a with
    | OS_none => Some (with_wpc (if isOpen c then W_poll else W_loop) s)
    | _ => None
    end
  | W_poll =>
    match a with
    | OS_poll result revents error =>
      if bool_decide (result = 0) then Some (with_wpc W_loop s)
      else if bool_decide (result < 0) then
        let s1 := WARN (WARN_strerror error) s in
        Some (with_wpc W_loop (with_conn (setState CLOSING c) s1))
      else if bool_decide (revents <> POLLIN) then
        let s1 := WARN (WARN_strerror error) s in
        Some (with_wpc W_loop (with_conn (setState CLOSING c) s1))
      else Some (with_wpc W_recv s)
    | _ => None
    end
  | W_recv =>
    match a with
    | OS_recv bytesRecieved buffer error now =>
      if bool_decide (bytesRecieved = 0) then
        (* Peer has shut down. *)
        Some (with_wpc W_loop (with_conn (setState CLOSING c) s))
      else if bool_decide (bytesRecieved < 0) then
        let s1 := WARN (WARN_strerror error) s in
        Some (with_wpc W_loop (with_conn (setState CLOSING c) s1))
      else if bool_decide (bytesRecieved <= vsize buffer) then
        Some (with_wpc (W_append buffer bytesRecieved)
                       (with_conn (set_lastActiveTime now c) s))
      else None
    | _ => None
    end
  | W_append buffer bytesRecieved =>
    match a with
    | OS_none =>
      Some (with_wpc W_recv_loop (with_conn (append_received buffer bytesRecieved c) s))
    | _ => None
    end
  | W_cleanup =>
    match a with
    | OS_close ret error =>
      let s1 := if bool_decide (ret <> 0) then WARN (WARN_strerror error) s else s in
      Some (with_wpc W_set_closed
              (count_socket_close (with_conn (set_tcpSocket 0 c) s1)))
    | _ => None
    end
  | W_set_closed =>
    match a with
    | OS_none => Some (with_wpc W_done (with_conn (setState CLOSED c) s))
    | _ => None
    end
  | W_sleep | W_touch _ _ | W_done => None
  end.

(** [TCPConnection::run], the part compiled with SDL2_net. *)
Definition worker_step_sdl (a : os_answer) (s : system) : option system :=
  let c := conn s in
  match wpc s with
  | W_start =>
    match a with
    | OS_now t => Some (with_wpc W_loop (with_conn (set_lastActiveTime t c) s))
    | _ => None
    end
  | W_loop =>
    match a with
    | OS_none => Some (with_wpc (if isOpen c then W_sleep else W_cleanup) s)
    | _ => None
    end
  | W_sleep =>
    match a with
    | OS_none =>
      Some (with_wpc (if bool_decide (outQueue c = []) then W_recv_loop else W_lock) s)
    | _ => None
    end
  | W_lock =>
    match a with
    | OS_none => Some (with_wpc W_drain s)
    | _ => None
    end
  | W_drain => drain_step false a s
  | W_recv_loop =>
    match a with
    | OS_none =>
      Some (with_wpc (if negb (mayBeOpen c) && negb (isOpen c) then W_loop else W_poll) s)
    | _ => None
    end
  | W_poll =>
    match a with
    | OS_poll socketReady _ _ =>
      if bool_decide (socketReady = 0) then Some (with_wpc W_loop s)
      else if bool_decide (socketReady < 0) then
        let s1 := with_conn (setState CLOSING c) s in
        Some (with_wpc W_loop (WARN (WARN_text "TCP Connection error") s1))
      else Some (with_wpc W_recv s)
    | _ => None
    end
  | W_recv =>
    match a with
    | OS_recv bytesRecieved buffer _ _ =>
      if bool_decide (bytesRecieved <= 0) then
        Some (with_wpc W_loop (with_conn (setState CLOSING c) s))
      else if bool_decide (bytesRecieved <= vsize buffer) then
        Some (with_wpc (W_touch buffer bytesRecieved) s)
      else None
    | _ => None
    end
  | W_touch buffer bytesRecieved =>
    match a with
    | OS_now t =>
      Some (with_wpc (W_append buffer bytesRecieved)
                     (with_conn (set_lastActiveTime t c) s))
    | _ => None
    end
  | W_append buffer bytesRecieved =>
    match a with
    | OS_none =>
      Some (with_wpc W_recv_loop (with_conn (append_received buffer bytesRecieved c) s))
    | _ => None
    end
  | W_cleanup =>
    match a with
    | OS_none => Some (with_wpc W_set_closed (count_socket_close s))
    | _ => None
    end
  | W_set_closed =>
    match a with
    | OS_none => Some (with_wpc W_done (with_conn (setState CLOSED c) s))
    | _ => None
    end
  | W_done => None
  end.

Definition worker_step (b : backend) : os_answer -> system -> option system :=
  match b with
  | POSIX => worker_step_posix
  | SDL2_NET => worker_step_sdl
  end.

(** ** A connection and the threads that use it *)

(** Modelled from the spec: [UserThread] (Concurrency/UserThread.h) is not
    part of the sources at hand.  The spec has [close()] "join the worker
    if it is still running": [isActive()] holds as long as [run] has not
    returned, and [join()] returns once it has. *)
Definition isActive (s : system) : bool := negb (bool_decide (wpc s = W_done)).

(** [TCPConnection::close], one statement at a time.  A thread that is not
    inside [close()] enters it with the test [isOpen()]. *)
Definition close_step (tid : nat) (s : system) : option system :=
  match callers s !! tid with
  | None | Some C_returned =>
    Some (with_caller tid (if isOpen (conn s) then C_set else C_active) s)
  | Some C_set =>
    Some (with_caller tid C_active (with_conn (setState CLOSING (conn s)) s))
  | Some C_active =>
    Some (with_caller tid (if isActive s then C_join else C_returned) s)
  | Some C_join =>
    if isActive s then None else Some (with_caller tid C_returned s)
  end.

(** [TCPConnection::sendData] in the two parts between which other
    threads can be scheduled.  The first is [if (!isOpen()) return false;]:
    on a connection that is not open the call is over, on an open one the
    thread goes on to the lock of the send queue. *)
Definition sendData_test (tid : nat) (data : list uint8_t) (s : system) : option system :=
  match senders s !! tid with
  | Some _ => None
  | None =>
    Some (if negb (isOpen (conn s)) then s
          else with_senders (<[tid := data]> (senders s)) s)
  end.

(** The second is the block under the lock: [outQueue.emplace_back(data);
    return true;].  The worker holds that lock while it is at [W_drain];
    the thread waits for it. *)
Definition sendData_append (tid : nat) (s : system) : option system :=
  match senders s !! tid with
  | None => None
  | Some data =>
    if bool_decide (wpc s = W_drain) then None
    else Some (with_senders (delete tid (senders s))
                 (with_conn (set_outQueue (outQueue (conn s) ++ [data]) (conn s)) s))
  end.

(** What can happen next: the worker runs up to its next place and gets
    the answer [a], a thread goes one statement further in [close()] (the
    destructor does nothing but call it), a thread calls [sendData] or
    [sendString] and makes the test, a thread that has passed the test
    appends, or a thread runs one of the functions of the receive queue.
    A [hint] is the value the unlocked read of [inQueueDataSize] saw, which
    may be out of date. *)
Inductive label : Type :=
| L_worker (a : os_answer)
| L_close (tid : nat)
| L_sendData (tid : nat) (data : list uint8_t)
| L_sendString (tid : nat) (str : string)
| L_enqueue (tid : nat)
| L_receiveData_all (hint : Z)
| L_receiveData (hint : Z) (numBytes : Z)
| L_receiveString (hint : Z) (delimiter : uint8_t).

Definition step (b : backend) (l : label) (s : system) : option system :=
  match l with
  | L_worker a => worker_step b a s
  | L_close tid => close_step tid s
  | L_sendData tid data => sendData_test tid data s
  | L_sendString tid str => sendData_test tid (list_byte_of_string str) s
  | L_enqueue tid => sendData_append tid s
  | L_receiveData_all hint =>
    Some (with_conn (receiveData_all_hinted hint (conn s)).2 s)
  | L_receiveData hint numBytes =>
    if bool_decide (0 <= numBytes < SIZE_MODULUS) then
      Some (with_conn (receiveData_hinted hint numBytes (conn s)).2 s)
    else None
  | L_receiveString hint delimiter =>
    Some (with_conn (receiveString_hinted hint delimiter (conn s)).2 s)
  end.

Fixpoint exec (b : backend) (tr : list label) (s : system) : option system :=
  match tr with
  | [] => Some s
  | l :: tr' =>
    match step b l s with
    | Some s' => exec b tr' s'
    | None => None
    end
  end.

(** The systems that a run goes through, the first one included, and the
    values of [state] seen in them. *)
Fixpoint visited (b : backend) (tr : list label) (s : system) : list system :=
  s ::
  match tr with
  | [] => []
  | l :: tr' =>
    match step b l s with
    | Some s' => visited b tr' s'
    | None => []
    end
  end.

Definition observed_states (b : backend) (tr : list label) (s : system) : list state_t :=
  map (fun s' => state (conn s')) (visited b tr s).

(** The order of the states in the life of an endpoint, and what it means
    for a sequence of observations to follow it. *)
Definition state_rank (st : state_t) : nat :=
  match st with OPEN => 0 | CLOSING => 1 | CLOSED => 2 end.

Definition monotonic_states (obs : list state_t) : Prop :=
  forall (i j : nat) (earlier later : state_t),
    (i <= j)%nat -> obs !! i = Some earlier -> obs !! j = Some later ->
    (state_rank earlier <= state_rank later)%nat.

(** A run in which no thread is inside [close()]. *)
Definition is_close (l : label) : bool :=
  match l with L_close _ => true | _ => false end.

(** ** One pass of the send loop *)

(** The worker from [W_drain] until it leaves the send loop, fed with the
    answers [(ret, error)] to its [send] calls in order.  The result is the
    system at the place after the loop and the answers that were not used;
    there is none when the answers run out before the loop ends. *)
Fixpoint drain_pass (warn : bool) (answers : list (Z * Z)) (s : system)
  : option (system * list (Z * Z)) :=
  match outQueue (conn s) with
  | [] =>
    match drain_step warn OS_none s with
    | Some s' => Some (s', answers)
    | None => None
    end
  | _ :: _ =>
    match answers with
    | [] => None
    | (ret, error) :: answers' =>
      match drain_step warn (OS_send ret error) s with
      | Some s' =>
        if bool_decide (wpc s' = W_drain) then drain_pass warn answers' s'
        else Some (s', answers')
      | None => None
      end
    end
  end.

(** ** TCPServer *)

(** A [Reference<TCPConnection>] is the index of the connection among the
    objects the server has created; these objects live on while anybody
    refers to them, each with its own worker. *)
Definition Reference : Type := nat.

(** The fields of [TCPServer] together with its [InternalData]. *)
Record TCPServer : Type := mkServer {
  tcpServerSocket : Z;
  serverState : state_t;
  newConnectionsQueue : list Reference
}.

(** [TCPServer::getIncomingConnection]; [None] is the null reference. *)
Definition getIncomingConnection (srv : TCPServer) : option Reference * TCPServer :=
  match newConnectionsQueue srv with
  | connection :: rest =>
    (Some connection, mkServer (tcpServerSocket srv) (serverState srv) rest)
  | [] => (None, srv)
  end.

Inductive server_pc : Type :=
| S_loop           (* [while (isOpen())] *)
| S_poll           (* POSIX: [poll] *)
| S_accept         (* [accept] / [SDLNet_TCP_Accept], then the push under the queue lock *)
| S_cleanup        (* the block after the loop *)
| S_set_closed     (* [setState(CLOSED)] *)
| S_done.

#[global] Instance server_pc_eq_dec : EqDecision server_pc.
Proof. solve_decision. Defined.

(** The places of a thread inside [TCPServer::close]. *)
Inductive sclose_pc : Type :=
| SC_pending              (* holds the queue lock, at [while (!newConnectionsQueue.empty())] *)
| SC_closing              (* holds the queue lock, inside [front()->close()] *)
| SC_check                (* the block is left; [if (isOpen())] comes next *)
| SC_tail (pc : close_pc).

(** What a step of the server lets the outside see of the queue. *)
Inductive event : Type :=
| Ev_accepted (r : Reference)
| Ev_returned (r : option Reference)
| Ev_dropped (r : Reference).

Record server_sys : Type := mkSrv {
  server : TCPServer;
  spc : server_pc;
  server_warnings : list warning;
  server_socket_closes : nat;
  queueMutex : option nat;
  closers : gmap nat sclose_pc;
  objects : list system
}.

Definition with_server (srv : TCPServer) (s : server_sys) : server_sys :=
  mkSrv srv (spc s) (server_warnings s) (server_socket_closes s)
        (queueMutex s) (closers s) (objects s).
Definition with_spc (pc : server_pc) (s : server_sys) : server_sys :=
  mkSrv (server s) pc (server_warnings s) (server_socket_closes s)
        (queueMutex s) (closers s) (objects s).
Definition server_WARN (w : warning) (s : server_sys) : server_sys :=
  mkSrv (server s) (spc s) (server_warnings s ++ [w]) (server_socket_closes s)
        (queueMutex s) (closers s) (objects s).
Definition count_server_close (s : server_sys) : server_sys :=
  mkSrv (server s) (spc s) (server_warnings s) (S (server_socket_closes s))
        (queueMutex s) (closers s) (objects s).
Definition with_queueMutex (m : option nat) (s : server_sys) : server_sys :=
  mkSrv (server s) (spc s) (server_warnings s) (server_socket_closes s)
        m (closers s) (objects s).
Definition with_closer (tid : nat) (pc : sclose_pc) (s : server_sys) : server_sys :=
  mkSrv (server s) (spc s) (server_warnings s) (server_socket_closes s)
        (queueMutex s) (<[tid := pc]> (closers s)) (objects s).
Definition with_objects (os : list system) (s : server_sys) : server_sys :=
  mkSrv (server s) (spc s) (server_warnings s) (server_socket_closes s)
        (queueMutex s) (closers s) os.

(** Modelled from the spec: [isOpen], [setState] and [isActive] of a
    server are declared in NetworkTCP.h and Concurrency/UserThread.h, which
    are not part of the sources at hand; they are what they are for a
    connection. *)
Definition server_setState (st : state_t) (s : server_sys) : server_sys :=
  with_server (mkServer (tcpServerSocket (server s)) st (newConnectionsQueue (server s))) s.
Definition server_isOpen (s : server_sys) : bool :=
  bool_decide (serverState (server s) = OPEN).
Definition server_isActive (s : server_sys) : bool :=
  negb (bool_decide (spc s = S_done)).

(** The constructor ends with [UserThread::start()]. *)
Definition new_server (socket : Z) : server_sys :=
  mkSrv (mkServer socket OPEN []) S_loop [] 0 None ∅ [].

(** [newConnectionsQueue.push_back(new TCPConnection(
      TCPConnection::InternalData(clientSocket, remoteIp)))] *)
Definition push_new_connection (clientSocket : Z) (remoteIp : IPv4Address)
    (s : server_sys) : server_sys * Reference :=
  let r := length (objects s) in
  let srv := server s in
  (with_objects (objects s ++ [new_system clientSocket remoteIp])
     (with_server (mkServer (tcpServerSocket srv) (serverState srv)
                            (newConnectionsQueue srv ++ [r])) s),
   r).

(** [TCPServer::run] *)
Definition server_worker_step (b : backend) (a : os_answer) (s : server_sys)
  : option (server_sys * list event) :=
  match spc s with
  | S_loop =>
    match a with
    | OS_none =>
      let next := match b with POSIX => S_poll | SDL2_NET => S_accept end in
      Some (with_spc (if server_isOpen s then next else S_cleanup) s, [])
    | _ => None
    end
  | S_poll =>
    match b, a with
    | POSIX, OS_poll result revents error =>
      if bool_decide (result < 0) then
        Some (with_spc S_cleanup
                (server_setState CLOSING (server_WARN (WARN_strerror error) s)), [])
      else if bool_decide (result > 0) then
        if bool_decide (revents <> POLLIN) then
          Some (with_spc S_cleanup
                  (server_setState CLOSING (server_WARN (WARN_strerror error) s)), [])
        else Some (with_spc S_accept s, [])
      else Some (with_spc S_loop s, [])
    | _, _ => None
    end
  | S_accept =>
    match a with
    | OS_accept clientSocket remoteIp =>
      match b with
      | POSIX =>
        match queueMutex s with
        | Some _ => None
        | None =>
          let '(s', r) := push_new_connection clientSocket remoteIp s in
          Some (with_spc S_loop s', [Ev_accepted r])
        end
      | SDL2_NET =>
        if bool_decide (clientSocket <> 0) then
          match queueMutex s with
          | Some _ => None
          | None =>
            let '(s', r) := push_new_connection clientSocket remoteIp s in
            Some (with_spc S_loop s', [Ev_accepted r])
          end
        else Some (with_spc S_loop s, [])
      end
    | _ => None
    end
  | S_cleanup =>
    match b, a with
    | POSIX, OS_close ret error =>
      let s1 := if bool_decide (ret <> 0) then server_WARN (WARN_strerror error) s else s in
      let srv := server s1 in
      Some (with_spc S_set_closed
              (count_server_close
                 (with_server (mkServer 0 (serverState srv) (newConnectionsQueue srv)) s1)), [])
    | SDL2_NET, OS_none => Some (with_spc S_set_closed (count_server_close s), [])
    | _, _ => None
    end
  | S_set_closed =>
    match a with
    | OS_none => Some (with_spc S_done (server_setState CLOSED s), [])
    | _ => None
    end
  | S_done => None
  end.

(** [TCPServer::close], one statement at a time. *)
Definition server_close_step (tid : nat) (s : server_sys)
  : option (server_sys * list event) :=
  let start :=
    match queueMutex s with
    | Some _ => None
    | None => Some (with_closer tid SC_pending (with_queueMutex (Some tid) s), [])
    end in
  match closers s !! tid with
  | None | Some (SC_tail C_returned) => start
  | Some SC_pending =>
    match newConnectionsQueue (server s) with
    | [] => Some (with_closer tid SC_check (with_queueMutex None s), [])
    | r :: _ =>
      match objects s !! r with
      | Some o =>
        match close_step tid o with
        | Some o' => Some (with_closer tid SC_closing (with_objects (<[r := o']> (objects s)) s), [])
        | None => None
        end
      | None => None
      end
    end
  | Some SC_closing =>
    match newConnectionsQueue (server s) with
    | [] => None
    | r :: rest =>
      match objects s !! r with
      | Some o =>
        if bool_decide (callers o !! tid = Some C_returned) then
          let srv := server s in
          Some (with_closer tid SC_pending
                  (with_server (mkServer (tcpServerSocket srv) (serverState srv) rest) s),
                [Ev_dropped r])
        else
          match close_step tid o with
          | Some o' => Some (with_objects (<[r := o']> (objects s)) s, [])
          | None => None
          end
      | None => None
      end
    end
  | Some SC_check =>
    Some (with_closer tid (SC_tail (if server_isOpen s then C_set else C_active)) s, [])
  | Some (SC_tail C_set) =>
    Some (with_closer tid (SC_tail C_active) (server_setState CLOSING s), [])
  | Some (SC_tail C_active) =>
    Some (with_closer tid (SC_tail (if server_isActive s then C_join else C_returned)) s, [])
  | Some (SC_tail C_join) =>
    if server_isActive s then None else Some (with_closer tid (SC_tail C_returned) s, [])
  end.

Inductive server_label : Type :=
| SL_worker (a : os_answer)
| SL_close (tid : nat)
| SL_getIncomingConnection
| SL_connection (r : Reference) (l : label).

Definition server_step (b : backend) (l : server_label) (s : server_sys)
  : option (server_sys * list event) :=
  match l with
  | SL_worker a => server_worker_step b a s
  | SL_close tid => server_close_step tid s
  | SL_getIncomingConnection =>
    match queueMutex s with
    | Some _ => None
    | None =>
      let '(connection, srv) := getIncomingConnection (server s) in
      Some (with_server srv s, [Ev_returned connection])
    end
  | SL_connection r l =>
    match objects s !! r with
    | Some o =>
      match step b l o with
      | Some o' => Some (with_objects (<[r := o']> (objects s)) s, [])
      | None => None
      end
    | None => None
    end
  end.

Fixpoint server_exec (b : backend) (tr : list server_label) (s : server_sys)
  : option (server_sys * list event) :=
  match tr with
  | [] => Some (s, [])
  | l :: tr' =>
    match server_step b l s with
    | Some (s', evs) =>
      match server_exec b tr' s' with
      | Some (s'', evs') => Some (s'', evs ++ evs')
      | None => None
      end
    | None => None
    end
  end.

Definition accepted_of (evs : list event) : list Reference :=
  omap (fun e => match e with Ev_accepted r => Some r | _ => None end) evs.
Definition returned_of (evs : list event) : list Reference :=
  omap (fun e => match e with Ev_returned (Some r) => Some r | _ => None end) evs.
Definition taken_of (evs : list event) : list Reference :=
  omap (fun e => match e with
                 | Ev_returned (Some r) | Ev_dropped r => Some r
                 | _ => None
                 end) evs.
Definition dropped_of (evs : list event) : list Reference :=
  omap (fun e => match e with Ev_dropped r => Some r | _ => None end) evs.

(** ** Invariants of a connection with its worker *)

(** The worker carries [bytesRecieved] and the buffer from the read to the
    block that appends them only after it has seen [bytesRecieved > 0]. *)
Definition wpc_ok (pc : worker_pc) : Prop :=
  match pc with
  | W_touch buffer bytesRecieved | W_append buffer bytesRecieved =>
    0 < bytesRecieved <= vsize buffer
  | _ => True
  end.

Definition sys_inv (s : system) : Prop :=
  inQueue_inv (conn s) /\ wpc_ok (wpc s).

(** How one step can change the receive queue and its counter. *)
Inductive inQueue_change (c c' : TCPConnection) : Prop :=
| change_none :
    inQueue c' = inQueue c ->
    inQueueDataSize c' = inQueueDataSize c ->
    inQueue_change c c'
| change_extract (data : list uint8_t) :
    data <> [] ->
    queue_bytes (inQueue c) = data ++ queue_bytes (inQueue c') ->
    extraction_shape (inQueue c) (vsize data) (inQueue c') ->
    inQueueDataSize c' = inQueueDataSize c - vsize data ->
    inQueue_change c c'
| change_append (k : Z) (data : chunk) :
    0 < k -> vsize data = k ->
    inQueue c' = inQueue c ++ [data] ->
    inQueueDataSize c' = inQueueDataSize c + k ->
    inQueue_change c c'.

(** What a pass of the send loop is said to do.  [written_in_full data a]:
    the write attempt that answered [a] wrote no fewer bytes than [data]
    has.  A pass either sends every chunk, each by one attempt, or it sends
    the chunks [sent], meets the answer [ret] to the attempt on [head]
    with fewer bytes than [head] has, and stops with [head] still in front
    and the state [CLOSING]. *)
Definition written_in_full (data : chunk) (a : Z * Z) : Prop := vsize data <= a.1.

Inductive drain_outcome (s : system) (answers : list (Z * Z))
    (s' : system) (rest : list (Z * Z)) : Prop :=
| drained_all :
    forall used,
    answers = used ++ rest ->
    Forall2 written_in_full (outQueue (conn s)) used ->
    outQueue (conn s') = [] ->
    state (conn s') = state (conn s) ->
    drain_outcome s answers s' rest
| drain_stopped :
    forall sent head left used ret error,
    outQueue (conn s) = sent ++ head :: left ->
    answers = used ++ (ret, error) :: rest ->
    Forall2 written_in_full sent used ->
    ret < vsize head ->
    outQueue (conn s') = head :: left ->
    state (conn s') = CLOSING ->
    drain_outcome s answers s' rest.

(** A chunk of 2 GiB, and a system whose worker is in the send loop with
    one chunk in the send queue. *)
Definition two_GiB : chunk := replicate (Z.to_nat 2147483648) x00.
Definition sending (data : chunk) : system :=
  mkSys (mkConn (mkIPv4 2130706433 19999) 0 5 OPEN [] 0 [data]) W_drain [] 0 ∅ ∅.

(** ** A run in which [close()] meets the end of the worker *)

(** 127.0.0.1:19999 *)
Definition loopback : IPv4Address := mkIPv4 2130706433 19999.

(** Thread 1 calls [close()] on an open connection and finds [isOpen()]
    true.  Before it goes on, the peer shuts down: the worker reads 0
    bytes, leaves its loops, closes the socket and sets [CLOSED].  Then
    thread 1 goes on with its [setState(CLOSING)] and returns. *)
Definition close_race : list label :=
  [ L_worker (OS_now 0);
    L_worker OS_none;
    L_worker OS_none;
    L_worker OS_none;
    L_worker OS_none;
    L_close 1;
    L_worker (OS_poll 1 POLLIN 0);
    L_worker (OS_recv 0 [x00; x00; x00; x00] 0 0);
    L_worker OS_none;
    L_worker (OS_close 0 0);
    L_worker OS_none;
    L_close 1;
    L_close 1 ].

(** ** What holds of the worker and of [close()] in every run *)

(** The socket has been handed to [::close] / [SDLNet_TCP_Close] once the
    worker is past its last block, and not before. *)
Definition socket_closes_at (pc : worker_pc) : nat :=
  match pc with
  | W_set_closed | W_done => 1
  | _ => 0
  end.

Definition close_inv (s : system) : Prop :=
  match wpc s with
  | W_cleanup | W_set_closed | W_done => state (conn s) <> OPEN
  | _ => True
  end
  /\ socket_closes s = socket_closes_at (wpc s)
  /\ (forall tid, callers s !! tid = Some C_returned -> wpc s = W_done).

(** Only the worker writes [CLOSED], as the last thing it does. *)
Definition closed_means_done (s : system) : Prop :=
  state (conn s) = CLOSED -> wpc s = W_done.

(** An undisturbed [close()]: thread 1 sets [CLOSING] while the worker
    polls, waits in [join()] until the worker is through, and returns. *)
Definition close_run : list label :=
  [ L_worker (OS_now 0);
    L_worker OS_none;
    L_worker OS_none;
    L_worker OS_none;
    L_worker OS_none;
    L_close 1;
    L_close 1;
    L_close 1;
    L_worker (OS_poll 0 0 0);
    L_worker OS_none;
    L_worker (OS_close 0 0);
    L_worker OS_none;
    L_close 1 ].

(** ** Failures of the calls the worker makes *)

(** The answer [a] at the place of [s] is a failure of [send], [poll] or
    [recv]: [send] wrote fewer bytes than the length it was called with,
    the poll returned a negative result (or, with [poll], an event other
    than [POLLIN]), [recv] returned a negative result. *)
Definition io_error (b : backend) (s : system) (a : os_answer) : Prop :=
  match wpc s, a with
  | W_drain, OS_send ret _ =>
    match outQueue (conn s) with
    | data :: _ => ret < int_of_size_t (vsize data)
    | [] => False
    end
  | W_poll, OS_poll ret revents _ =>
    ret < 0 \/ (b = POSIX /\ ret > 0 /\ revents <> POLLIN)
  | W_recv, OS_recv ret _ _ _ => ret < 0
  | _, _ => False
  end.

(** The same for the worker of a server, which only polls (and only
    without SDL2_net). *)
Definition server_io_error (b : backend) (s : server_sys) (a : os_answer) : Prop :=
  match b, spc s, a with
  | POSIX, S_poll, OS_poll ret revents _ => ret < 0 \/ (ret > 0 /\ revents <> POLLIN)
  | _, _, _ => False
  end.

(** What the worker logs for a failure. *)
Definition warnings_for (b : backend) (pc : worker_pc) (a : os_answer) : list warning :=
  match b, pc, a with
  | POSIX, _, OS_send _ error => [WARN_strerror error]
  | POSIX, _, OS_poll _ _ error => [WARN_strerror error]
  | POSIX, _, OS_recv _ _ error _ => [WARN_strerror error]
  | SDL2_NET, W_poll, _ => [WARN_text "TCP Connection error"]
  | _, _, _ => []
  end.

(** What the specification says of a failure, at one step: the state
    becomes [CLOSING] and exactly one warning is added to the log. *)
Definition closes_with_one_warning (b : backend) (s : system) (a : os_answer) : Prop :=
  forall s', worker_step b a s = Some s' ->
    state (conn s') = CLOSING /\ exists w, warnings s' = warnings s ++ [w].

(** A connection whose worker, compiled with SDL2_net, is about to read. *)
Definition sdl_reading : system :=
  mkSys (mkConn loopback 0 5 OPEN [] 0 []) W_recv [] 0 ∅ ∅.

(** A connection whose worker is about to read four bytes. *)
Definition posix_reading : system :=
  mkSys (mkConn loopback 0 5 OPEN [] 0 []) W_recv [] 0 ∅ ∅.

(** ** Runs of a server used as examples *)

(** The worker accepts two clients, a caller fetches one connection, the
    worker accepts a third client, and the caller fetches three times. *)
Definition accept_answers (fd : Z) (port : Z) : list server_label :=
  [ SL_worker OS_none;
    SL_worker (OS_poll 1 POLLIN 0);
    SL_worker (OS_accept fd (mkIPv4 2130706433 port)) ].

Definition server_run : list server_label :=
  accept_answers 7 40001 ++ accept_answers 8 40002 ++
  [SL_getIncomingConnection] ++
  accept_answers 9 40003 ++
  [SL_getIncomingConnection; SL_getIncomingConnection; SL_getIncomingConnection].

(** A server whose worker has been told that the listening socket is
    readable. *)
Definition server_accepting : server_sys :=
  mkSrv (mkServer 4 OPEN []) S_accept [] 0 None ∅ [].

(** ** Connections used as examples *)

(** Four bytes that arrived in two reads. *)
Definition example_conn : TCPConnection :=
  mkConn loopback 0 5 OPEN [[x01; x02; x03]; [x04]] 4 [].

(** ["hi\0yo\0"] that arrived in two reads, cut inside the second word. *)
Definition example_text : TCPConnection :=
  mkConn loopback 0 5 OPEN [[x68; x69; x00; x79]; [x6f; x00]] 6 [].

(** The first of them with its worker between two polls. *)
Definition example_system : system := mkSys example_conn W_recv_loop [] 0 ∅ ∅.

(** The system after the run [close_run]. *)
Definition after_close_run : system :=
  Eval vm_compute in
  default (new_system 5 loopback) (exec POSIX close_run (new_system 5 loopback)).

(** The server after [server_run], and what the run let see. *)
Definition after_server_run : server_sys * list event :=
  Eval vm_compute in
  default (new_server 4, []) (server_exec POSIX server_run (new_server 4)).

(** ** Proof automation *)

(** Steps that leave the receive queue alone. *)
Ltac queue_untouched :=
  match goal with
  | Hinv : inQueue_inv _ |- _ =>
    split;
    [ split;
      [ exact Hinv
      | simpl;
        repeat match goal with
               | |- context [if ?b then _ else _] => destruct b
               end;
        simpl; auto; lia ]
    | apply change_none; reflexivity ]
  end.

Ltac step_cases H :=
  repeat first
    [ progress simplify_eq
    | match type of H with
      | context [match ?a with OS_none => _ | _ => _ end] => destruct a
      | context [if bool_decide ?P then _ else _] => destruct (bool_decide_reflect P)
      | context [if ?b then _ else _] => destruct b eqn:?
      | context [match outQueue ?c with [] => _ | _ :: _ => _ end] =>
          destruct (outQueue c) eqn:?
      end ].

(** Case analysis of a step of a thread inside [sendData]. *)
Ltac sender_cases H :=
  unfold sendData_test, sendData_append in H;
  repeat match type of H with
         | context [match senders ?s !! ?tid with _ => _ end] =>
             destruct (senders s !! tid) eqn:?
         | context [if bool_decide ?P then _ else _] => destruct (bool_decide_reflect P)
         | context [if ?c then _ else _] => destruct c eqn:?
         end;
  simplify_eq.

(** ** What a run moves through the queues *)

(** The bytes a step hands to its caller, the bytes a step of the worker
    puts into the receive queue, the chunks a step puts into the send
    queue, and the chunk the worker removes from it after its [send]. *)
Definition delivered_by (l : label) (s : system) : list uint8_t :=
  match l with
  | L_receiveData_all hint => (receiveData_all_hinted hint (conn s)).1
  | L_receiveData hint numBytes => (receiveData_hinted hint numBytes (conn s)).1
  | L_receiveString hint delimiter =>
    list_byte_of_string (receiveString_hinted hint delimiter (conn s)).1
  | _ => []
  end.

Definition arrived_by (l : label) (s : system) : list uint8_t :=
  match l, wpc s with
  | L_worker OS_none, W_append buffer bytesRecieved =>
    take (Z.to_nat bytesRecieved) buffer
  | _, _ => []
  end.

Definition enqueued_by (l : label) (s : system) : list chunk :=
  match l with
  | L_enqueue tid =>
    match senders s !! tid with
    | Some data => [data]
    | None => []
    end
  | _ => []
  end.

Definition popped_by (l : label) (s : system) : list chunk :=
  match l, wpc s, outQueue (conn s) with
  | L_worker (OS_send ret _), W_drain, data :: _ =>
    if bool_decide (ret < int_of_size_t (vsize data)) then [] else [data]
  | _, _, _ => []
  end.

(** What the steps of a run give, one after the other. *)
Fixpoint collect {A} (f : label -> system -> list A)
    (b : backend) (tr : list label) (s : system) : list A :=
  match tr with
  | [] => []
  | l :: tr' =>
    match step b l s with
    | Some s' => f l s ++ collect f b tr' s'
    | None => []
    end
  end.



(** ** How far the worker is from the end of [run] *)

(** The places of the worker in the code of a backend: [W_sleep] and
    [W_touch] are places of the part compiled with SDL2_net only. *)
Definition place_of_backend (b : backend) (pc : worker_pc) : Prop :=
  match b, pc with
  | POSIX, (W_sleep | W_touch _ _) => False
  | _, _ => True
  end.

(** An upper bound of the steps the worker still makes once the state is
    not [OPEN]: the places from the one it is at down to the end, in the
    send loop one more for every chunk in the send queue, and before the
    send loop one more for every chunk that a thread inside [sendData] can
    still append. *)
Definition worker_measure (s : system) : nat :=
  match wpc s with
  | W_done => 0
  | W_set_closed => 1
  | W_cleanup => 2
  | W_loop => 3
  | W_start => 4
  | W_recv_loop => 4
  | W_append _ _ => 5
  | W_touch _ _ => 6
  | W_recv => 7
  | W_poll => 8
  | W_drain => 5 + length (outQueue (conn s))
  | W_lock => 6 + length (outQueue (conn s)) + size (senders s)
  | W_sleep => 7 + length (outQueue (conn s)) + size (senders s)
  end.

Definition is_worker (l : label) : bool :=
  match l with L_worker _ => true | _ => false end.

(** The number of steps of the worker in a run. *)
Fixpoint worker_steps (tr : list label) : nat :=
  match tr with
  | [] => 0
  | l :: tr' => (if is_worker l then 1 else 0) + worker_steps tr'
  end.

(** The worker has left its outer loop. *)
Definition past_loop (pc : worker_pc) : Prop :=
  match pc with
  | W_cleanup | W_set_closed | W_done => True
  | _ => False
  end.

(** A connection with two chunks to send on which [close()] has just set
    [CLOSING] while the worker was in [poll] and thread 7 was inside
    [sendData] past its test.  In the run thread 2 calls [sendData], thread
    7 appends, and the worker goes to its end. *)
Definition closing_system : system :=
  mkSys (mkConn loopback 0 5 CLOSING [] 0 [[x61]; [x62]]) W_poll [] 0 ∅
        {[ 7%nat := [x63] ]}.

Definition closing_run : list label :=
  [ L_worker (OS_poll 0 0 0);
    L_sendData 2 [x64];
    L_enqueue 7;
    L_worker OS_none;
    L_worker (OS_close 0 0);
    L_worker OS_none ].

(** No chunk of the receive queue is empty. *)
Definition chunks_nonempty (c : TCPConnection) : Prop :=
  Forall (fun data => data <> []) (inQueue c).

(** What the field [tcpSocket] of a connection built on [socket] holds
    when its worker is at [pc]: without SDL2_net the worker stores 0 after
    it has closed the socket. *)
Definition socket_field (b : backend) (socket : Z) (pc : worker_pc) : Z :=
  match b, pc with
  | POSIX, (W_set_closed | W_done) => 0
  | _, _ => socket
  end.

(** ** What holds of a server and of its [close()] in every run *)

(** The listening socket has been handed to [::close] / [SDLNet_TCP_Close]
    once the worker is past its last block, and not before. *)
Definition server_closes_at (pc : server_pc) : nat :=
  match pc with
  | S_set_closed | S_done => 1
  | _ => 0
  end.

Definition server_close_inv (s : server_sys) : Prop :=
  match spc s with
  | S_cleanup | S_set_closed | S_done => serverState (server s) <> OPEN
  | _ => True
  end
  /\ server_socket_closes s = server_closes_at (spc s)
  /\ (forall tid, closers s !! tid = Some (SC_tail C_returned) -> spc s = S_done).

(** A connection whose worker has left [run]. *)
Definition worker_done (o : system) : Prop := wpc o = W_done.

(** A server accepts two clients, a caller fetches the first, and thread
    1 calls [close()]: the second connection is still pending, so the
    thread closes it (its worker ends in between), then it sets [CLOSING],
    waits for the worker of the server and returns. *)
Definition server_close_run : list server_label :=
  accept_answers 7 40001 ++ accept_answers 8 40002 ++
  [ SL_getIncomingConnection;
    SL_worker OS_none;
    SL_close 1;
    SL_close 1;
    SL_close 1;
    SL_close 1;
    SL_connection 1%nat (L_worker (OS_now 0));
    SL_connection 1%nat (L_worker OS_none);
    SL_connection 1%nat (L_worker (OS_close 0 0));
    SL_connection 1%nat (L_worker OS_none);
    SL_close 1;
    SL_close 1;
    SL_close 1;
    SL_close 1;
    SL_close 1;
    SL_close 1;
    SL_worker (OS_poll 0 0 0);
    SL_worker OS_none;
    SL_worker (OS_close 0 0);
    SL_worker OS_none;
    SL_close 1 ].

(** Case analysis of a step of a server. *)
Ltac server_cases H :=
  repeat match type of H with
         | context [match queueMutex ?s with _ => _ end] => destruct (queueMutex s) eqn:?
         | context [match newConnectionsQueue ?s with _ => _ end] =>
             destruct (newConnectionsQueue s) eqn:?
         | context [match objects ?s !! ?r with _ => _ end] =>
             destruct (objects s !! r) eqn:?
         | context [match close_step ?t ?o with _ => _ end] =>
             destruct (close_step t o) eqn:?
         | context [match step ?b ?l ?o with _ => _ end] =>
             destruct (step b l o) eqn:?
         | context [match ?a with OS_none => _ | _ => _ end] => destruct a
         | context [if bool_decide ?P then _ else _] => destruct (bool_decide_reflect P)
         | context [if ?c then _ else _] => destruct c eqn:?
         end.

(** An upper bound of the steps the worker of a server still makes once
    the state of the server is not [OPEN]. *)
Definition server_measure (s : server_sys) : nat :=
  match spc s with
  | S_done => 0
  | S_set_closed => 1
  | S_cleanup => 2
  | S_loop => 3
  | S_accept => 4
  | S_poll => 5
  end.

Definition is_server_worker (l : server_label) : bool :=
  match l with SL_worker _ => true | _ => false end.

Fixpoint server_worker_steps (tr : list server_label) : nat :=
  match tr with
  | [] => 0
  | l :: tr' => (if is_server_worker l then 1 else 0) + server_worker_steps tr'
  end.

(** With SDL2_net: [SDLNet_TCP_Accept] finds nobody, then a client, then
    nobody again. *)
Definition sdl_server_run : list server_label :=
  [ SL_worker OS_none;
    SL_worker (OS_accept 0 loopback);
    SL_worker OS_none;
    SL_worker (OS_accept 140737 loopback);
    SL_connection 0%nat (L_worker (OS_now 1));
    SL_worker OS_none;
    SL_worker (OS_accept 0 loopback) ].

(** ** More systems and runs used as examples *)

(** A connection that is [CLOSING] with one unsent chunk, whose worker is
    about to close the socket while thread 7 is inside [sendData] past its
    test, and a run from there. *)
Definition leaving_system : system :=
  mkSys (mkConn loopback 0 5 CLOSING [] 0 [[x61]]) W_cleanup [] 0 ∅
        {[ 7%nat := [x62] ]}.

Definition leaving_run : list label :=
  [ L_worker (OS_close 0 0); L_enqueue 7; L_worker OS_none; L_close 1 ].

(** A server on which [close()] has set [CLOSING] while its worker was in
    [poll], and what the worker does then. *)
Definition closing_server : server_sys :=
  mkSrv (mkServer 4 CLOSING []) S_poll [] 0 None ∅ [].

Definition closing_server_run : list server_label :=
  [ SL_worker (OS_poll 0 0 0);
    SL_getIncomingConnection;
    SL_worker OS_none;
    SL_worker (OS_close 0 0);
    SL_worker OS_none ].

Definition after_closing_run : system :=
  Eval vm_compute in default closing_system (exec POSIX closing_run closing_system).
Definition after_leaving_run : system :=
  Eval vm_compute in default leaving_system (exec POSIX leaving_run leaving_system).
Definition after_server_close_run : server_sys * list event :=
  Eval vm_compute in
  default (new_server 4, []) (server_exec POSIX server_close_run (new_server 4)).
Definition after_closing_server_run : server_sys * list event :=
  Eval vm_compute in
  default (closing_server, []) (server_exec POSIX closing_server_run closing_server).
Definition after_sdl_server_run : server_sys * list event :=
  Eval vm_compute in
  default (new_server 4, []) (server_exec SDL2_NET sdl_server_run (new_server 4)).
Definition after_read : system :=
  Eval vm_compute in
  default posix_reading
    (step POSIX (L_worker (OS_recv 3 [x61; x62; x63; x00] 0 7)) posix_reading).

(** ** What a step does to the receive queue *)

(** The step [l] is a call that takes the first [n] bytes out of the
    receive queue of [s]: the unlocked read of the counter lets the call go
    on to the lock, and under the lock [receiveData(numBytes)] finds at
    least [n = numBytes] bytes counted, [receiveData()] finds [n] bytes
    counted, [receiveString(delimiter)] finds the first [delimiter] as the
    [n]-th byte of the queue. *)
Definition extracts (l : label) (s : system) (n : Z) : Prop :=
  0 < n <= inQueueDataSize (conn s)
  /\ match l with
     | L_receiveData hint numBytes => numBytes <= hint /\ n = numBytes
     | L_receiveData_all hint => 0 < hint /\ n = inQueueDataSize (conn s)
     | L_receiveString hint delimiter =>
       hint <> 0
       /\ exists pre post,
            queue_bytes (inQueue (conn s)) = pre ++ delimiter :: post
            /\ (delimiter ∉ pre)
            /\ n = vsize pre + 1
     | _ => False
     end.

(** The step [l] is the block of the worker under the lock of the receive
    queue, after a read that put [bytesRecieved] bytes into [buffer]. *)
Definition appends (l : label) (s : system)
    (buffer : list uint8_t) (bytesRecieved : Z) : Prop :=
  l = L_worker OS_none /\ wpc s = W_append buffer bytesRecieved.

(** * Properties *)

(** ** Arithmetic of the machine integers *)

Lemma size_t_wrap_small z : 0 <= z < SIZE_MODULUS -> size_t_wrap z = z.
Proof. intros H. unfold size_t_wrap. apply Z.mod_small, H. Qed.

Lemma int_of_size_t_small z : 0 <= z <= INT_MAX -> int_of_size_t z = z.
Proof.
  unfold int_of_size_t, INT_MAX. intros H.
  rewrite Z.mod_small; lia.
Qed.

Lemma vsize_nonneg {A} (v : list A) : 0 <= vsize v.
Proof. unfold vsize. lia. Qed.

Lemma vsize_app {A} (u v : list A) : vsize (u ++ v) = vsize u + vsize v.
Proof. unfold vsize. rewrite length_app. lia. Qed.

Lemma queue_size_cons it q : queue_size (it :: q) = vsize it + queue_size q.
Proof. unfold queue_size, queue_bytes. simpl. apply vsize_app. Qed.

Lemma queue_size_app q1 q2 : queue_size (q1 ++ q2) = queue_size q1 + queue_size q2.
Proof.
  unfold queue_size, queue_bytes. rewrite concat_app. apply vsize_app.
Qed.

Lemma queue_size_nonneg q : 0 <= queue_size q.
Proof. apply vsize_nonneg. Qed.

(** ** The extraction loop *)

Lemma extract_loop_zero q data p : extract_loop q 0 data p = (q, data, p).
Proof. destruct q; reflexivity. Qed.

Lemma pop_front_n_drop {A} n (q : list A) : pop_front_n n q = drop n q.
Proof.
  revert q. induction n as [|n IH]; intros [|x q]; simpl; auto.
Qed.

Lemma extract_loop_spec q : forall remainingBytes data p,
  0 <= remainingBytes <= queue_size q ->
  exists k q1,
    extract_loop q remainingBytes data p
      = (q1, data ++ take (Z.to_nat remainingBytes) (queue_bytes q), (p + k)%nat)
    /\ length q1 = length q
    /\ (k <= length q)%nat
    /\ queue_bytes (drop k q1) = drop (Z.to_nat remainingBytes) (queue_bytes q)
    /\ extraction_shape q remainingBytes (drop k q1).
Proof.
  induction q as [|it rest IH]; intros rem data p Hrem.
  - exists 0%nat, []. unfold queue_size, queue_bytes, vsize in *. simpl in *.
    assert (rem = 0) as -> by lia. simpl.
    rewrite app_nil_r, Nat.add_0_r. repeat split; auto.
    apply (shape_whole [] 0 [] 0%nat); reflexivity.
  - rewrite queue_size_cons in Hrem. pose proof (vsize_nonneg it) as Hit.
    simpl extract_loop. case_bool_decide as Hpos.
    + case_bool_decide as Hfull.
      * destruct (IH (rem - vsize it) (data ++ it) (S p)) as (k & q1 & E & Hl & Hk & Hb & Hs);
          [lia|].
        rewrite E. exists (S k), (it :: q1).
        assert (Z.to_nat rem = (length it + Z.to_nat (rem - vsize it))%nat) as Hsplit
          by (unfold vsize in *; lia).
        unfold queue_bytes in *. simpl concat. rewrite Hsplit.
        rewrite take_app_add, drop_app_add, <- app_assoc. simpl.
        repeat split; auto; try lia.
        destruct Hs as [k' Hsz Hq | k' it' r Hlk Hsz Hr Hq].
        -- apply (shape_whole _ _ _ (S k')); simpl; [rewrite queue_size_cons; lia | auto].
        -- apply (shape_cut _ _ _ (S k') it' r); simpl; auto.
           rewrite queue_size_cons. lia.
      * rewrite extract_loop_zero. exists 0%nat, (drop (Z.to_nat rem) it :: rest).
        assert (Z.to_nat rem <= length it)%nat as Hle by (unfold vsize in *; lia).
        unfold queue_bytes. simpl concat.
        rewrite take_app_le, drop_app_le by exact Hle.
        rewrite Nat.add_0_r. simpl. repeat split; auto; try lia.
        apply (shape_cut _ _ _ 0%nat it rem); simpl; auto; try lia.
    + assert (rem = 0) as -> by lia.
      exists 0%nat, (it :: rest). unfold queue_bytes. simpl.
      rewrite app_nil_r, Nat.add_0_r. repeat split; auto; try lia.
      apply (shape_whole _ _ _ 0%nat); reflexivity.
Qed.

(** ** [extractDataFromInQueue] *)

Lemma extractDataFromInQueue_none numBytes c :
  numBytes = 0 \/ inQueueDataSize c < numBytes ->
  extractDataFromInQueue numBytes c = ([], c).
Proof.
  intros H. unfold extractDataFromInQueue.
  destruct H as [-> | H].
  - rewrite (bool_decide_eq_true_2 (0 = 0)) by reflexivity.
    rewrite orb_true_r. reflexivity.
  - rewrite (bool_decide_eq_true_2 _ H). reflexivity.
Qed.

Lemma extractDataFromInQueue_some numBytes c :
  inQueue_inv c ->
  0 < numBytes <= inQueueDataSize c ->
  exists q',
    extractDataFromInQueue numBytes c
      = (take (Z.to_nat numBytes) (queue_bytes (inQueue c)),
         set_inQueue q' (inQueueDataSize c - numBytes) c)
    /\ queue_bytes q' = drop (Z.to_nat numBytes) (queue_bytes (inQueue c))
    /\ extraction_shape (inQueue c) numBytes q'.
Proof.
  intros [Hsz Hfit] Hn. unfold extractDataFromInQueue.
  rewrite bool_decide_eq_false_2 by lia.
  rewrite bool_decide_eq_false_2 by lia. simpl orb. cbv iota.
  destruct (extract_loop_spec (inQueue c) numBytes [] 0%nat)
    as (k & q1 & E & Hl & Hk & Hb & Hs); [lia|].
  rewrite E. simpl. rewrite pop_front_n_drop.
  assert ((if bool_decide (k = length q1) then [] else drop k q1) = drop k q1) as ->.
  { case_bool_decide as Hk'; [|reflexivity]. rewrite Hk', drop_all. reflexivity. }
  exists (drop k q1). split; [|split; assumption].
  unfold size_t_sub. rewrite size_t_wrap_small by (pose proof (queue_size_nonneg (inQueue c)); lia).
  reflexivity.
Qed.

Lemma take_length_Z {A} (l : list A) n :
  0 <= n <= vsize l -> vsize (take (Z.to_nat n) l) = n.
Proof. unfold vsize. intros H. rewrite length_take. lia. Qed.

Lemma drop_length_Z {A} (l : list A) n :
  0 <= n <= vsize l -> vsize (drop (Z.to_nat n) l) = vsize l - n.
Proof. unfold vsize. intros H. rewrite length_drop. lia. Qed.

(** Extraction keeps the invariant, whatever it is asked for. *)
Lemma extractDataFromInQueue_inv numBytes c :
  inQueue_inv c -> 0 <= numBytes ->
  inQueue_inv (extractDataFromInQueue numBytes c).2.
Proof.
  intros Hinv Hn.
  destruct (decide (numBytes = 0 \/ inQueueDataSize c < numBytes)) as [H|H].
  - rewrite extractDataFromInQueue_none by exact H. exact Hinv.
  - destruct (extractDataFromInQueue_some numBytes c Hinv) as (q' & E & Hb & _); [lia|].
    rewrite E. destruct Hinv as [Hsz Hfit]. unfold inQueue_inv. simpl.
    unfold queue_size in *. rewrite Hb, drop_length_Z by lia. lia.
Qed.

(** ** The search of the delimiter *)

Lemma byte_eqb_true (x y : uint8_t) : Byte.eqb x y = true <-> x = y.
Proof. split; [apply Byte.byte_dec_bl | apply Byte.byte_dec_lb]. Qed.

Lemma first_occurrence_unique {A} (d : A) pre1 post1 pre2 post2 :
  pre1 ++ d :: post1 = pre2 ++ d :: post2 ->
  d ∉ pre1 -> d ∉ pre2 ->
  pre1 = pre2 /\ post1 = post2.
Proof.
  revert pre2. induction pre1 as [|x pre1 IH]; intros [|y pre2] E H1 H2; simpl in E.
  - injection E as E. auto.
  - injection E as -> E. exfalso. apply H2. left.
  - injection E as -> E. exfalso. apply H1. left.
  - injection E as -> E.
    destruct (IH pre2 E) as [-> ->]; auto.
    + intros Hin. apply H1. right. exact Hin.
    + intros Hin. apply H2. right. exact Hin.
Qed.

Lemma scan_package_absent d package : forall pos,
  0 <= pos -> pos + vsize package < SIZE_MODULUS ->
  d ∉ package ->
  scan_package d package pos = (pos + vsize package, false).
Proof.
  induction package as [|b rest IH]; intros pos Hpos Hfit Hno; simpl.
  - unfold vsize. simpl. f_equal. lia.
  - unfold vsize in *. simpl length in *.
    destruct (Byte.eqb b d) eqn:Eb.
    + apply byte_eqb_true in Eb. subst b. exfalso. apply Hno. left.
    + unfold size_t_add. rewrite size_t_wrap_small by lia.
      rewrite IH; [f_equal; lia | lia | lia |].
      intros Hin. apply Hno. right. exact Hin.
Qed.

Lemma scan_package_present d package : forall pos pre post,
  0 <= pos -> pos + vsize package < SIZE_MODULUS ->
  package = pre ++ d :: post -> d ∉ pre ->
  scan_package d package pos = (pos + vsize pre, true).
Proof.
  induction package as [|b rest IH]; intros pos pre post Hpos Hfit E Hno.
  - destruct pre; discriminate.
  - simpl. unfold vsize in *. simpl length in *. destruct pre as [|x pre]; simpl in E.
    + injection E as -> _. rewrite (Byte.byte_dec_lb eq_refl). simpl. f_equal. lia.
    + injection E as -> E.
      destruct (Byte.eqb x d) eqn:Eb.
      * apply byte_eqb_true in Eb. subst x. exfalso. apply Hno. left.
      * unfold size_t_add. rewrite size_t_wrap_small by lia.
        rewrite (IH _ pre post); [simpl; f_equal; lia | lia | lia | exact E |].
        intros Hin. apply Hno. right. exact Hin.
Qed.

Lemma scan_queue_found d q pos : scan_queue d q pos true = (pos, true).
Proof. destruct q; reflexivity. Qed.

Lemma scan_queue_absent d q : forall pos,
  0 <= pos -> pos + queue_size q < SIZE_MODULUS ->
  d ∉ queue_bytes q ->
  scan_queue d q pos false = (pos + queue_size q, false).
Proof.
  induction q as [|package rest IH]; intros pos Hpos Hfit Hno.
  - simpl. unfold queue_size, vsize. simpl. f_equal. lia.
  - rewrite queue_size_cons in *. unfold queue_bytes in Hno. simpl in Hno.
    pose proof (vsize_nonneg package). pose proof (queue_size_nonneg rest).
    simpl. rewrite scan_package_absent; [| lia | lia |].
    + rewrite IH; [f_equal; lia | lia | lia |].
      intros Hin. apply Hno. apply elem_of_app. right. exact Hin.
    + intros Hin. apply Hno. apply elem_of_app. left. exact Hin.
Qed.

Lemma scan_queue_present d q : forall pos pre post,
  0 <= pos -> pos + queue_size q < SIZE_MODULUS ->
  queue_bytes q = pre ++ d :: post -> d ∉ pre ->
  scan_queue d q pos false = (pos + vsize pre, true).
Proof.
  induction q as [|package rest IH]; intros pos pre post Hpos Hfit E Hno.
  - destruct pre; discriminate.
  - rewrite queue_size_cons in Hfit. unfold queue_bytes in E. simpl in E.
    pose proof (vsize_nonneg package). pose proof (queue_size_nonneg rest).
    simpl. destruct (decide (d ∈ package)) as [Hin|Hout].
    + apply list_elem_of_split_l in Hin as (p1 & p2 & -> & Hp1).
      rewrite <- app_assoc in E. simpl in E.
      destruct (first_occurrence_unique _ _ _ _ _ E Hp1 Hno) as [-> _].
      rewrite (scan_package_present d _ pos pre p2); auto; [|lia].
      apply scan_queue_found.
    + rewrite scan_package_absent; [| lia | lia | exact Hout].
      assert (exists pre', pre = package ++ pre') as [pre' ->].
      { clear - E Hout. revert pre E. induction package as [|b pk IHp]; intros pre E.
        - eexists. reflexivity.
        - destruct pre as [|x pre]; simpl in E.
          + injection E as -> _. exfalso. apply Hout. left.
          + injection E as -> E. destruct (IHp (fun Hin => Hout (list_elem_of_further _ _ _ Hin)) pre E)
              as [pre' ->]. eexists. reflexivity. }
      rewrite <- app_assoc in E. apply app_inv_head in E.
      rewrite (IH _ pre' post); [rewrite vsize_app; f_equal; lia | lia | lia | exact E |].
      intros Hin. apply Hno. apply elem_of_app. right. exact Hin.
Qed.

(** ** [receiveData(numBytes)] *)

Lemma set_inQueue_id c : set_inQueue (inQueue c) (inQueueDataSize c) c = c.
Proof. destruct c. reflexivity. Qed.

(** C1.  On a connection whose receive queue satisfies its invariant,
    [receiveData(n)] returns the next [n] bytes of the queue in arrival
    order and removes them when the counter is at least [n]; otherwise it
    returns nothing and the connection is unchanged.  The result has
    exactly [n] bytes if and only if the counter is at least [n]. *)
Theorem receiveData_fifo_or_nothing (c : TCPConnection) (n : Z) :
  inQueue_inv c -> 0 <= n ->
  (n <= inQueueDataSize c ->
     exists q',
       receiveData n c
         = (take (Z.to_nat n) (queue_bytes (inQueue c)),
            set_inQueue q' (inQueueDataSize c - n) c)
       /\ queue_bytes q' = drop (Z.to_nat n) (queue_bytes (inQueue c)))
  /\ (inQueueDataSize c < n -> receiveData n c = ([], c))
  /\ (vsize (receiveData n c).1 = n <-> n <= inQueueDataSize c).
Proof.
  intros Hinv Hn.
  assert (inQueueDataSize c < n -> receiveData n c = ([], c)) as Hlt.
  { intros H. unfold receiveData, receiveData_hinted.
    rewrite bool_decide_eq_false_2 by lia. reflexivity. }
  assert (n <= inQueueDataSize c ->
     exists q',
       receiveData n c
         = (take (Z.to_nat n) (queue_bytes (inQueue c)),
            set_inQueue q' (inQueueDataSize c - n) c)
       /\ queue_bytes q' = drop (Z.to_nat n) (queue_bytes (inQueue c))) as Hge.
  { intros H. unfold receiveData, receiveData_hinted.
    rewrite bool_decide_eq_true_2 by lia.
    destruct (decide (n = 0)) as [-> | Hn0].
    - rewrite extractDataFromInQueue_none by (left; reflexivity).
      exists (inQueue c). simpl. rewrite Z.sub_0_r, set_inQueue_id. auto.
    - destruct (extractDataFromInQueue_some n c Hinv) as (q' & E & Hb & _); [lia|].
      exists q'. auto. }
  split; [exact Hge|]. split; [exact Hlt|].
  destruct (decide (n <= inQueueDataSize c)) as [H|H].
  - destruct (Hge H) as (q' & E & _). rewrite E. simpl.
    destruct Hinv as [Hsz _]. unfold queue_size in Hsz.
    rewrite take_length_Z by lia. tauto.
  - rewrite Hlt by lia. simpl. unfold vsize. simpl.
    destruct Hinv as [Hsz _]. pose proof (queue_size_nonneg (inQueue c)). lia.
Qed.

(** A call whose unlocked read was out of date does what the undisturbed
    call does, or nothing. *)
Lemma receiveData_hinted_cases hint n c :
  receiveData_hinted hint n c = receiveData n c
  \/ receiveData_hinted hint n c = ([], c).
Proof.
  unfold receiveData, receiveData_hinted.
  destruct (bool_decide_reflect (hint >= n)); [|right; reflexivity].
  destruct (bool_decide_reflect (inQueueDataSize c >= n)); [left; reflexivity|].
  right. apply extractDataFromInQueue_none. right. lia.
Qed.

(** The four bytes of one read taken two at a time, then one too many. *)
Example partial_extraction :
  let c0 := mkConn (mkIPv4 2130706433 19999) 0 5 OPEN [[x01; x02; x03; x04]] 4 [] in
  let '(r1, c1) := receiveData 2 c0 in
  let '(r2, c2) := receiveData 2 c1 in
  let '(r3, c3) := receiveData 1 c2 in
  r1 = [x01; x02] /\ r2 = [x03; x04] /\ r3 = [] /\ inQueueDataSize c3 = 0.
Proof. vm_compute. repeat split; reflexivity. Qed.

(** ** [receiveString] *)

Lemma string_of_list_byte_nonempty (l : list uint8_t) :
  l <> [] -> string_of_list_byte l <> EmptyString.
Proof. destruct l; [congruence | discriminate]. Qed.

(** C2.  On a connection whose receive queue satisfies its invariant,
    [receiveString(d)] returns a non-empty string exactly when the byte [d]
    occurs in the queue.  When its first occurrence follows the bytes
    [pre], the result is [pre] followed by that one [d], these bytes are
    removed from the queue and the rest stays; when [d] does not occur the
    result is empty and the connection is unchanged. *)
Theorem receiveString_up_to_delimiter (c : TCPConnection) (d : uint8_t) :
  inQueue_inv c ->
  (d ∉ queue_bytes (inQueue c) -> receiveString d c = (EmptyString, c))
  /\ (forall pre post,
        queue_bytes (inQueue c) = pre ++ d :: post -> d ∉ pre ->
        exists q',
          receiveString d c
            = (string_of_list_byte (pre ++ [d]),
               set_inQueue q' (inQueueDataSize c - (vsize pre + 1)) c)
          /\ queue_bytes q' = post)
  /\ ((receiveString d c).1 <> EmptyString <-> d ∈ queue_bytes (inQueue c)).
Proof.
  intros Hinv. pose proof Hinv as [Hsz Hfit].
  pose proof (queue_size_nonneg (inQueue c)) as Hnn.
  assert (d ∉ queue_bytes (inQueue c) -> receiveString d c = (EmptyString, c)) as Habs.
  { intros Hno. unfold receiveString, receiveString_hinted.
    case_bool_decide; [reflexivity|].
    rewrite scan_queue_absent by (auto; lia). reflexivity. }
  assert (forall pre post,
        queue_bytes (inQueue c) = pre ++ d :: post -> d ∉ pre ->
        exists q',
          receiveString d c
            = (string_of_list_byte (pre ++ [d]),
               set_inQueue q' (inQueueDataSize c - (vsize pre + 1)) c)
          /\ queue_bytes q' = post) as Hpres.
  { intros pre post E Hno.
    assert (queue_size (inQueue c) = vsize pre + 1 + vsize post) as Hlen.
    { unfold queue_size. rewrite E, vsize_app. unfold vsize. simpl length. lia. }
    pose proof (vsize_nonneg pre). pose proof (vsize_nonneg post).
    unfold receiveString, receiveString_hinted.
    rewrite bool_decide_eq_false_2 by lia.
    rewrite (scan_queue_present d _ 0 pre post) by (auto; lia).
    rewrite Z.add_0_l. unfold size_t_add. rewrite size_t_wrap_small by lia.
    destruct (extractDataFromInQueue_some (vsize pre + 1) c Hinv) as (q' & Ex & Hb & _); [lia|].
    rewrite Ex.
    assert (Z.to_nat (vsize pre + 1) = length (pre ++ [d])) as Hidx
      by (rewrite length_app; unfold vsize; simpl; lia).
    rewrite Hidx in *. rewrite E in *.
    replace (pre ++ d :: post) with ((pre ++ [d]) ++ post) in * by (rewrite <- app_assoc; reflexivity).
    rewrite take_app_length. rewrite drop_app_length in Hb.
    rewrite bool_decide_eq_false_2 by (destruct pre; discriminate).
    exists q'. auto. }
  split; [exact Habs|]. split; [exact Hpres|].
  split.
  - intros Hne. destruct (decide (d ∈ queue_bytes (inQueue c))) as [Hin|Hout]; [exact Hin|].
    rewrite (Habs Hout) in Hne. simpl in Hne. congruence.
  - intros Hin. apply list_elem_of_split_l in Hin as (pre & post & E & Hno).
    destruct (Hpres pre post E Hno) as (q' & -> & _). simpl.
    apply string_of_list_byte_nonempty. destruct pre; discriminate.
Qed.

(** ["hello\0world\0"] read three times. *)
Example string_delimiter :
  let c0 := mkConn (mkIPv4 2130706433 19999) 0 5 OPEN
                   [list_byte_of_string "hello"; [x00];
                    list_byte_of_string "world"; [x00]] 12 [] in
  let '(s1, c1) := receiveString x00 c0 in
  let '(s2, c2) := receiveString x00 c1 in
  let '(s3, c3) := receiveString x00 c2 in
  list_byte_of_string s1 = list_byte_of_string "hello" ++ [x00]
  /\ list_byte_of_string s2 = list_byte_of_string "world" ++ [x00]
  /\ s3 = EmptyString.
Proof. vm_compute. repeat split; reflexivity. Qed.

(** ** The invariant of the receive queue under every step *)

Lemma extract_change numBytes c :
  inQueue_inv c -> 0 <= numBytes ->
  inQueue_change c (extractDataFromInQueue numBytes c).2.
Proof.
  intros Hinv Hn.
  destruct (decide (numBytes = 0 \/ inQueueDataSize c < numBytes)) as [H|H].
  - rewrite extractDataFromInQueue_none by exact H. apply change_none; reflexivity.
  - destruct (extractDataFromInQueue_some numBytes c Hinv) as (q' & E & Hb & Hs); [lia|].
    rewrite E. simpl. destruct Hinv as [Hsz Hfit]. unfold queue_size in Hsz.
    assert (vsize (take (Z.to_nat numBytes) (queue_bytes (inQueue c))) = numBytes) as Hlen
      by (apply take_length_Z; lia).
    apply (change_extract _ _ (take (Z.to_nat numBytes) (queue_bytes (inQueue c)))); simpl.
    + intros Hnil. rewrite Hnil in Hlen. unfold vsize in Hlen. simpl in Hlen. lia.
    + rewrite Hb, take_drop. reflexivity.
    + rewrite Hlen. exact Hs.
    + rewrite Hlen. reflexivity.
Qed.

Lemma size_t_add_nonneg a b : 0 <= size_t_add a b.
Proof.
  unfold size_t_add, size_t_wrap, SIZE_MODULUS.
  apply Z.mod_pos_bound. lia.
Qed.

Lemma receiveData_all_hinted_inv hint c :
  inQueue_inv c ->
  inQueue_inv (receiveData_all_hinted hint c).2
  /\ inQueue_change c (receiveData_all_hinted hint c).2.
Proof.
  intros Hinv. unfold receiveData_all_hinted.
  assert (0 <= inQueueDataSize c)
    by (destruct Hinv as [-> _]; apply queue_size_nonneg).
  case_bool_decide.
  - split; [apply extractDataFromInQueue_inv | apply extract_change]; auto.
  - split; [exact Hinv | apply change_none; reflexivity].
Qed.

Lemma receiveData_hinted_inv hint numBytes c :
  inQueue_inv c -> 0 <= numBytes ->
  inQueue_inv (receiveData_hinted hint numBytes c).2
  /\ inQueue_change c (receiveData_hinted hint numBytes c).2.
Proof.
  intros Hinv Hn. unfold receiveData_hinted. case_bool_decide.
  - split; [apply extractDataFromInQueue_inv | apply extract_change]; auto.
  - split; [exact Hinv | apply change_none; reflexivity].
Qed.

Lemma receiveString_hinted_inv hint delimiter c :
  inQueue_inv c ->
  inQueue_inv (receiveString_hinted hint delimiter c).2
  /\ inQueue_change c (receiveString_hinted hint delimiter c).2.
Proof.
  intros Hinv. unfold receiveString_hinted.
  case_bool_decide; [split; [exact Hinv | apply change_none; reflexivity]|].
  destruct (scan_queue delimiter (inQueue c) 0 false) as [pos found].
  destruct found; [|split; [exact Hinv | apply change_none; reflexivity]].
  pose proof (extractDataFromInQueue_inv (size_t_add pos 1) c Hinv (size_t_add_nonneg _ _)) as H1.
  pose proof (extract_change (size_t_add pos 1) c Hinv (size_t_add_nonneg _ _)) as H2.
  destruct (extractDataFromInQueue (size_t_add pos 1) c) as [d c'].
  case_bool_decide; simpl in *; auto.
Qed.

Lemma append_received_inv buffer k c :
  inQueue_inv c -> 0 < k <= vsize buffer ->
  queue_size (inQueue c) + k < SIZE_MODULUS ->
  inQueue_inv (append_received buffer k c)
  /\ inQueue (append_received buffer k c) = inQueue c ++ [take (Z.to_nat k) buffer]
  /\ vsize (take (Z.to_nat k) buffer) = k
  /\ inQueueDataSize (append_received buffer k c) = inQueueDataSize c + k.
Proof.
  intros [Hsz Hfit] Hk Hroom.
  pose proof (queue_size_nonneg (inQueue c)) as Hnn.
  assert (vsize (take (Z.to_nat k) buffer) = k) as Hlen by (apply take_length_Z; lia).
  assert (queue_size (inQueue c ++ [take (Z.to_nat k) buffer]) = queue_size (inQueue c) + k) as Hq.
  { rewrite queue_size_app. f_equal. unfold queue_size, queue_bytes. simpl.
    rewrite app_nil_r. exact Hlen. }
  unfold append_received, inQueue_inv. simpl.
  unfold size_t_add. rewrite size_t_wrap_small by lia.
  rewrite Hq. repeat split; auto; lia.
Qed.

Lemma drain_step_inv warn a s s' :
  sys_inv s -> wpc s = W_drain -> drain_step warn a s = Some s' ->
  sys_inv s' /\ inQueue_change (conn s) (conn s').
Proof.
  intros [Hinv Hpc] Hw H. unfold drain_step in H.
  step_cases H; try discriminate; unfold sys_inv; simpl;
    try rewrite Hw; queue_untouched.
Qed.

Lemma worker_step_inv b a s s' :
  sys_inv s -> worker_step b a s = Some s' ->
  queue_size (inQueue (conn s')) < SIZE_MODULUS ->
  sys_inv s' /\ inQueue_change (conn s) (conn s').
Proof.
  intros Hs H Hfit. pose proof Hs as [Hinv Hpc].
  destruct b; simpl in H; unfold worker_step_sdl, worker_step_posix in H;
    destruct (wpc s) eqn:Hw; try discriminate;
    try (eapply drain_step_inv; eassumption).
  all: simpl in Hpc.
  all: step_cases H; try discriminate; unfold sys_inv; simpl.
  all: try queue_untouched.
  all: simpl in Hfit.
  all: assert (queue_size (inQueue (conn s)) + bytesRecieved < SIZE_MODULUS)
         by (rewrite queue_size_app in Hfit;
             replace (queue_size [take (Z.to_nat bytesRecieved) buffer])
               with bytesRecieved in Hfit
               by (unfold queue_size, queue_bytes; simpl; rewrite app_nil_r;
                   symmetry; apply take_length_Z; lia);
             exact Hfit).
  all: destruct (append_received_inv buffer bytesRecieved (conn s)) as (Hi & Hq & Hl & Hc);
         auto.
  all: split; [split; [exact Hi | exact I] |].
  all: apply (change_append _ _ bytesRecieved (take (Z.to_nat bytesRecieved) buffer));
         auto; lia.
Qed.

Lemma new_system_inv socket address : sys_inv (new_system socket address).
Proof.
  unfold sys_inv, inQueue_inv, new_system, queue_size, queue_bytes, vsize, SIZE_MODULUS.
  simpl. repeat split; lia.
Qed.

Lemma close_step_inv tid s s' :
  sys_inv s -> close_step tid s = Some s' ->
  sys_inv s' /\ inQueue_change (conn s) (conn s').
Proof.
  intros [Hinv Hpc] H. unfold close_step in H.
  destruct (callers s !! tid) as [[]|]; step_cases H; try discriminate;
    unfold sys_inv; simpl; queue_untouched.
Qed.

Lemma step_inv (b : backend) (l : label) (s s' : system) :
  sys_inv s ->
  step b l s = Some s' ->
  queue_size (inQueue (conn s')) < SIZE_MODULUS ->
  sys_inv s' /\ inQueue_change (conn s) (conn s').
Proof.
  intros Hs H Hfit. pose proof Hs as [Hinv Hpc].
  destruct l; simpl in H.
  - eapply worker_step_inv; eassumption.
  - eapply close_step_inv; eassumption.
  - sender_cases H; unfold sys_inv; simpl; queue_untouched.
  - sender_cases H; unfold sys_inv; simpl; queue_untouched.
  - sender_cases H; unfold sys_inv; simpl; queue_untouched.
  - simplify_eq. unfold sys_inv. simpl.
    destruct (receiveData_all_hinted_inv hint (conn s) Hinv). auto.
  - case_bool_decide; [|discriminate]. simplify_eq. unfold sys_inv. simpl.
    destruct (receiveData_hinted_inv hint numBytes (conn s) Hinv); [lia|]. auto.
  - simplify_eq. unfold sys_inv. simpl.
    destruct (receiveString_hinted_inv hint delimiter (conn s) Hinv). auto.
Qed.

(** The invariant at every system a run from a good system goes through. *)
Lemma inQueue_invariant_along_run b tr : forall s,
  sys_inv s ->
  Forall (fun s' => queue_size (inQueue (conn s')) < SIZE_MODULUS) (visited b tr s) ->
  Forall sys_inv (visited b tr s).
Proof.
  induction tr as [|l tr IH]; intros s Hs Hfit; simpl in *.
  - constructor; [exact Hs | constructor].
  - constructor; [exact Hs|]. inversion Hfit as [|? ? _ Hrest]; subst.
    destruct (step b l s) as [s'|] eqn:E; [|constructor].
    apply IH; [|exact Hrest].
    eapply step_inv; [exact Hs | exact E |].
    destruct tr; simpl in Hrest; inversion Hrest; assumption.
Qed.

(** What an extraction of [n] bytes that are there hands out and
    leaves. *)
Lemma extraction_effect n c data c' :
  inQueue_inv c -> 0 < n <= inQueueDataSize c ->
  extractDataFromInQueue n c = (data, c') ->
  data = take (Z.to_nat n) (queue_bytes (inQueue c))
  /\ queue_bytes (inQueue c') = drop (Z.to_nat n) (queue_bytes (inQueue c))
  /\ extraction_shape (inQueue c) n (inQueue c')
  /\ inQueueDataSize c' = inQueueDataSize c - n.
Proof.
  intros Hinv Hn E.
  destruct (extractDataFromInQueue_some n c Hinv Hn) as (q' & E' & Hb & Hs).
  rewrite E' in E. injection E as <- <-. simpl. auto.
Qed.

Lemma step_extracts b l s s' n :
  sys_inv s -> step b l s = Some s' -> extracts l s n ->
  delivered_by l s = take (Z.to_nat n) (queue_bytes (inQueue (conn s)))
  /\ queue_bytes (inQueue (conn s')) = drop (Z.to_nat n) (queue_bytes (inQueue (conn s)))
  /\ extraction_shape (inQueue (conn s)) n (inQueue (conn s'))
  /\ inQueueDataSize (conn s') = inQueueDataSize (conn s) - n.
Proof.
  intros [Hinv _] H [Hn Hl]. destruct l; simpl in Hl; try contradiction; simpl in H.
  - destruct Hl as [Hh ->]. simplify_eq. simpl. unfold receiveData_all_hinted.
    rewrite bool_decide_eq_true_2 by lia.
    destruct (extractDataFromInQueue (inQueueDataSize (conn s)) (conn s)) as [d c'] eqn:E.
    simpl. eapply extraction_effect; eassumption.
  - destruct Hl as [Hh ->]. case_bool_decide; [|discriminate]. simplify_eq. simpl.
    unfold receiveData_hinted. rewrite bool_decide_eq_true_2 by lia.
    destruct (extractDataFromInQueue numBytes (conn s)) as [d c'] eqn:E.
    simpl. eapply extraction_effect; eassumption.
  - destruct Hl as (Hh & pre & post & Eq & Hno & ->). simplify_eq. simpl.
    pose proof Hinv as [Hsz Hfit].
    assert (queue_size (inQueue (conn s)) = vsize pre + 1 + vsize post) as Hlen.
    { unfold queue_size. rewrite Eq, vsize_app. unfold vsize. simpl length. lia. }
    pose proof (vsize_nonneg pre). pose proof (vsize_nonneg post).
    unfold receiveString_hinted. rewrite bool_decide_eq_false_2 by exact Hh.
    rewrite (scan_queue_present delimiter _ 0 pre post) by (auto; lia).
    rewrite Z.add_0_l. unfold size_t_add. rewrite size_t_wrap_small by lia.
    destruct (extractDataFromInQueue (vsize pre + 1) (conn s)) as [d c'] eqn:E.
    destruct (extraction_effect _ _ _ _ Hinv Hn E) as (Hd & Hb & Hs & Hc).
    assert (d <> []) as Hne.
    { rewrite Hd, Eq. intros Hnil. apply (f_equal vsize) in Hnil.
      rewrite take_length_Z in Hnil by (rewrite <- Eq; unfold queue_size in Hlen; lia).
      unfold vsize in Hnil at 2. simpl in Hnil. lia. }
    rewrite (bool_decide_eq_false_2 _ Hne). simpl.
    rewrite list_byte_of_string_of_list_byte. auto.
Qed.

Lemma step_appends b l s s' buffer k :
  sys_inv s -> step b l s = Some s' ->
  queue_size (inQueue (conn s')) < SIZE_MODULUS ->
  appends l s buffer k ->
  0 < k
  /\ vsize (take (Z.to_nat k) buffer) = k
  /\ inQueue (conn s') = inQueue (conn s) ++ [take (Z.to_nat k) buffer]
  /\ inQueueDataSize (conn s') = inQueueDataSize (conn s) + k.
Proof.
  intros [Hinv Hpc] H Hfit [-> Hw]. rewrite Hw in Hpc. simpl in Hpc.
  assert (s' = with_wpc W_recv_loop (with_conn (append_received buffer k (conn s)) s)) as ->.
  { destruct b; simpl in H; unfold worker_step_sdl, worker_step_posix in H;
      rewrite Hw in H; simplify_eq; reflexivity. }
  simpl in *.
  assert (queue_size (inQueue (conn s)) + k < SIZE_MODULUS).
  { rewrite queue_size_app in Hfit.
    replace (queue_size [take (Z.to_nat k) buffer]) with k in Hfit; [exact Hfit|].
    unfold queue_size, queue_bytes. simpl. rewrite app_nil_r.
    symmetry. apply take_length_Z. lia. }
  destruct (append_received_inv buffer k (conn s)) as (_ & Hq & Hl & Hc); auto.
  split; [lia|]. auto.
Qed.

Lemma step_leaves_inQueue b l s s' :
  sys_inv s -> step b l s = Some s' ->
  (forall n, ~ extracts l s n) ->
  (forall buffer k, ~ appends l s buffer k) ->
  inQueue (conn s') = inQueue (conn s)
  /\ inQueueDataSize (conn s') = inQueueDataSize (conn s).
Proof.
  intros [Hinv _] H Hne Hna. pose proof Hinv as [Hsz Hfit].
  pose proof (queue_size_nonneg (inQueue (conn s))) as Hnn.
  destruct l; simpl in H.
  - destruct b; simpl in H; unfold worker_step_sdl, worker_step_posix, drain_step in H;
      destruct (wpc s) eqn:Hw; try discriminate;
      step_cases H; try discriminate.
    all: try (exfalso; eapply Hna; split; [reflexivity | exact Hw]).
    all: simpl;
      repeat match goal with
             | |- context [if ?c then _ else _] => destruct c
             end;
      split; reflexivity.
  - unfold close_step in H.
    destruct (callers s !! tid) as [[]|]; step_cases H; try discriminate;
      split; reflexivity.
  - sender_cases H; split; reflexivity.
  - sender_cases H; split; reflexivity.
  - sender_cases H; split; reflexivity.
  - simplify_eq. simpl. unfold receiveData_all_hinted.
    case_bool_decide; [|split; reflexivity].
    destruct (decide (inQueueDataSize (conn s) = 0)) as [E|E].
    + rewrite extractDataFromInQueue_none by (left; exact E). split; reflexivity.
    + exfalso. apply (Hne (inQueueDataSize (conn s))). split; [lia|]. split; [lia | reflexivity].
  - case_bool_decide; [|discriminate]. simplify_eq. simpl. unfold receiveData_hinted.
    case_bool_decide; [|split; reflexivity].
    destruct (decide (numBytes = 0 \/ inQueueDataSize (conn s) < numBytes)) as [E|E].
    + rewrite extractDataFromInQueue_none by exact E. split; reflexivity.
    + exfalso. apply (Hne numBytes). split; [lia|]. split; [lia | reflexivity].
  - simplify_eq. simpl. unfold receiveString_hinted.
    case_bool_decide as Hh; [split; reflexivity|].
    destruct (decide (delimiter ∈ queue_bytes (inQueue (conn s)))) as [Hin|Hout].
    + exfalso. apply list_elem_of_split_l in Hin as (pre & post & Eq & Hno).
      assert (queue_size (inQueue (conn s)) = vsize pre + 1 + vsize post) as Hlen.
      { unfold queue_size. rewrite Eq, vsize_app. unfold vsize. simpl length. lia. }
      pose proof (vsize_nonneg pre). pose proof (vsize_nonneg post).
      apply (Hne (vsize pre + 1)). split; [lia|]. split; [exact Hh|].
      exists pre, post. auto.
    + rewrite scan_queue_absent by (auto; lia). split; reflexivity.
Qed.

(** C3.  In a system whose counter [inQueueDataSize] is the number of
    bytes in [inQueue], every step (of the worker, of a thread in
    [close()], of a caller of a queue function) leads to a system where
    this holds again, as long as the bytes in the queue stay countable in a
    [size_t].  What the step does to the queue is fixed by what the step
    is.  A call that takes [n] bytes that are there ([receiveData(n)],
    [receiveData()] with [n] the counter, [receiveString] with the
    delimiter as the [n]-th byte) hands out the first [n] bytes of the
    queue in their order, leaves the bytes behind them, removes the chunks
    it used up and keeps of a chunk it cut the suffix in front, and lowers
    the counter by exactly [n]; so does [extractDataFromInQueue] itself.
    The block of the worker after a read of [k] bytes appends one chunk,
    the first [k] bytes of the buffer, and raises the counter by [k].
    Every other step leaves the queue and the counter as they are. *)
Theorem inQueue_invariant_every_step (b : backend) (l : label) (s s' : system) :
  sys_inv s ->
  step b l s = Some s' ->
  queue_size (inQueue (conn s')) < SIZE_MODULUS ->
  sys_inv s'
  /\ inQueue_change (conn s) (conn s')
  /\ (forall n, extracts l s n ->
        delivered_by l s = take (Z.to_nat n) (queue_bytes (inQueue (conn s)))
        /\ queue_bytes (inQueue (conn s'))
           = drop (Z.to_nat n) (queue_bytes (inQueue (conn s)))
        /\ extraction_shape (inQueue (conn s)) n (inQueue (conn s'))
        /\ inQueueDataSize (conn s') = inQueueDataSize (conn s) - n)
  /\ (forall buffer k, appends l s buffer k ->
        0 < k
        /\ vsize (take (Z.to_nat k) buffer) = k
        /\ inQueue (conn s') = inQueue (conn s) ++ [take (Z.to_nat k) buffer]
        /\ inQueueDataSize (conn s') = inQueueDataSize (conn s) + k)
  /\ ((forall n, ~ extracts l s n) ->
      (forall buffer k, ~ appends l s buffer k) ->
      inQueue (conn s') = inQueue (conn s)
      /\ inQueueDataSize (conn s') = inQueueDataSize (conn s))
  /\ (forall n, 0 < n <= inQueueDataSize (conn s) ->
        exists q',
          extractDataFromInQueue n (conn s)
            = (take (Z.to_nat n) (queue_bytes (inQueue (conn s))),
               set_inQueue q' (inQueueDataSize (conn s) - n) (conn s))
          /\ queue_bytes q' = drop (Z.to_nat n) (queue_bytes (inQueue (conn s)))
          /\ extraction_shape (inQueue (conn s)) n q').
Proof.
  intros Hs H Hfit.
  destruct (step_inv b l s s' Hs H Hfit) as [Hs' Hch].
  split; [exact Hs'|]. split; [exact Hch|].
  split; [intros n; apply (step_extracts b l s s' n Hs H)|].
  split; [intros buffer k; apply (step_appends b l s s' buffer k Hs H Hfit)|].
  split; [apply (step_leaves_inQueue b l s s' Hs H)|].
  intros n Hn. apply extractDataFromInQueue_some; [apply Hs | exact Hn].
Qed.


(** ** The send loop of the worker *)

Lemma drain_step_head warn ret error s data rest :
  outQueue (conn s) = data :: rest ->
  drain_step warn (OS_send ret error) s
  = if bool_decide (ret < int_of_size_t (vsize data)) then
      let s1 := if warn then WARN (WARN_strerror error) s else s in
      Some (with_wpc W_recv_loop (with_conn (setState CLOSING (conn s1)) s1))
    else Some (with_conn (set_outQueue rest (conn s)) s).
Proof. intros E. unfold drain_step. rewrite E. reflexivity. Qed.

(** A pass over chunks whose sizes fit in an [int] ends, given an answer
    for each of them, and does what [drain_outcome] says. *)
Lemma drain_pass_of_int_sized_chunks warn : forall q answers s,
  outQueue (conn s) = q ->
  wpc s = W_drain ->
  Forall (fun data => vsize data <= INT_MAX) q ->
  (length q <= length answers)%nat ->
  exists s' rest,
    drain_pass warn answers s = Some (s', rest)
    /\ wpc s' = W_recv_loop
    /\ inQueue (conn s') = inQueue (conn s)
    /\ drain_outcome s answers s' rest.
Proof.
  induction q as [|data q IH]; intros answers s Eq Hw Hsmall Hlen.
  - exists (with_wpc W_recv_loop s), answers.
    destruct answers; simpl; unfold drain_step; rewrite Eq; simpl;
      (split; [reflexivity|]); (split; [reflexivity|]); (split; [reflexivity|]);
      apply (drained_all _ _ _ _ []); simpl; auto; rewrite Eq; constructor.
  - destruct answers as [|[ret error] answers]; [simpl in Hlen; lia|].
    inversion Hsmall as [|? ? Hd Hq]; subst.
    assert (drain_pass warn ((ret, error) :: answers) s
            = match drain_step warn (OS_send ret error) s with
              | Some s' =>
                if bool_decide (wpc s' = W_drain) then drain_pass warn answers s'
                else Some (s', answers)
              | None => None
              end) as -> by (simpl; rewrite Eq; reflexivity).
    rewrite (drain_step_head _ _ _ _ _ _ Eq).
    rewrite int_of_size_t_small by (pose proof (vsize_nonneg data); lia).
    case_bool_decide as Hret.
    + eexists _, answers. cbv zeta.
      split; [reflexivity|]. split; [destruct warn; reflexivity|].
      split; [destruct warn; reflexivity|].
      apply (drain_stopped _ _ _ _ [] data q [] ret error).
      * exact Eq.
      * reflexivity.
      * constructor.
      * exact Hret.
      * destruct warn; simpl; exact Eq.
      * destruct warn; reflexivity.
    + rewrite bool_decide_eq_true_2 by (simpl; exact Hw).
      destruct (IH answers (with_conn (set_outQueue q (conn s)) s))
        as (s' & rest & E & Hpc & Hin & Hout); auto; [simpl in Hlen; lia|].
      exists s', rest. split; [exact E|]. split; [exact Hpc|]. split; [exact Hin|].
      destruct Hout as [used Ha Hf Hq' Hst | sent head left used r e Hq0 Ha Hf Hr Hq' Hst].
      * apply (drained_all _ _ _ _ ((ret, error) :: used)); auto.
        -- rewrite Ha. reflexivity.
        -- rewrite Eq. constructor; [unfold written_in_full; simpl; lia | exact Hf].
      * apply (drain_stopped _ _ _ _ (data :: sent) head left ((ret, error) :: used) r e); auto.
        -- rewrite Eq. simpl in Hq0. rewrite Hq0. reflexivity.
        -- rewrite Ha. reflexivity.
        -- constructor; [unfold written_in_full; simpl; lia | exact Hf].
Qed.

(** A single chunk whose size does not survive the conversion to [int]. *)
Lemma drain_pass_len_wraps warn data ret error s :
  outQueue (conn s) = [data] ->
  wpc s = W_drain ->
  int_of_size_t (vsize data) <= ret ->
  drain_pass warn [(ret, error)] s
  = Some (with_wpc W_recv_loop (with_conn (set_outQueue [] (conn s)) s), []).
Proof.
  intros Eq Hw Hret.
  assert (drain_pass warn [(ret, error)] s
          = match drain_step warn (OS_send ret error) s with
            | Some s' =>
              if bool_decide (wpc s' = W_drain) then drain_pass warn [] s'
              else Some (s', [])
            | None => None
            end) as -> by (simpl; rewrite Eq; reflexivity).
  rewrite (drain_step_head _ _ _ _ _ _ Eq).
  rewrite bool_decide_eq_false_2 by lia.
  rewrite bool_decide_eq_true_2 by exact Hw.
  reflexivity.
Qed.

Lemma vsize_two_GiB : vsize two_GiB = 2147483648.
Proof.
  unfold two_GiB, vsize. rewrite length_replicate. apply Z2Nat.id. lia.
Qed.

(** A failed [send] on a chunk of exactly 2^31 bytes. *)
Lemma drain_pass_2_31 (data : chunk) :
  vsize data = 2147483648 ->
  exists s',
    drain_pass true [(-1, 32)] (sending data) = Some (s', [])
    /\ outQueue (conn s') = []
    /\ state (conn s') = OPEN
    /\ warnings s' = []
    /\ ~ drain_outcome (sending data) [(-1, 32)] s' [].
Proof.
  intros Hsz. eexists. split.
  - apply (drain_pass_len_wraps true data); [reflexivity | reflexivity |].
    rewrite Hsz. vm_compute. congruence.
  - split; [reflexivity|]. split; [reflexivity|]. split; [reflexivity|].
    intros [used Ha Hf _ _ | sent head left used ret error _ _ _ _ Hq _].
    + change (outQueue (conn (sending data))) with [data] in Hf.
      inversion Hf as [|? a ? ? Hfull Hrest]; subst. inversion Hrest; subst.
      rewrite app_nil_r in Ha. injection Ha as <-.
      unfold written_in_full in Hfull. rewrite Hsz in Hfull. simpl in Hfull. lia.
    + discriminate Hq.
Qed.

(** C4, where the code departs from it.  The send queue holds one chunk
    of 2 GiB and [send] answers -1: nothing was written.  The size of the
    chunk becomes the [int] -2147483648, -1 is not below it, and the pass
    removes the chunk and leaves the state [OPEN] without a warning.  That
    is neither of the two outcomes a pass may have. *)
Theorem drain_pops_chunk_that_was_not_sent :
  exists s',
    drain_pass true [(-1, 32)] (sending two_GiB) = Some (s', [])
    /\ outQueue (conn s') = []
    /\ state (conn s') = OPEN
    /\ warnings s' = []
    /\ ~ drain_outcome (sending two_GiB) [(-1, 32)] s' [].
Proof. exact (drain_pass_2_31 two_GiB vsize_two_GiB). Qed.

(** ** The state of a connection along a run *)

Lemma extractDataFromInQueue_state numBytes c :
  state (extractDataFromInQueue numBytes c).2 = state c
  /\ outQueue (extractDataFromInQueue numBytes c).2 = outQueue c.
Proof.
  unfold extractDataFromInQueue.
  destruct (bool_decide (inQueueDataSize c < numBytes) || bool_decide (numBytes = 0));
    [split; reflexivity|].
  destruct (extract_loop (inQueue c) numBytes [] 0) as [[q1 data] p].
  split; reflexivity.
Qed.

Lemma receiveData_all_hinted_state hint c :
  state (receiveData_all_hinted hint c).2 = state c.
Proof.
  unfold receiveData_all_hinted. case_bool_decide; [|reflexivity].
  apply extractDataFromInQueue_state.
Qed.

Lemma receiveData_hinted_state hint numBytes c :
  state (receiveData_hinted hint numBytes c).2 = state c.
Proof.
  unfold receiveData_hinted. case_bool_decide; [|reflexivity].
  apply extractDataFromInQueue_state.
Qed.

Lemma receiveString_hinted_state hint delimiter c :
  state (receiveString_hinted hint delimiter c).2 = state c.
Proof.
  unfold receiveString_hinted. case_bool_decide; [reflexivity|].
  destruct (scan_queue delimiter (inQueue c) 0 false) as [pos [|]]; [|reflexivity].
  pose proof (extractDataFromInQueue_state (size_t_add pos 1) c) as [Hst _].
  destruct (extractDataFromInQueue (size_t_add pos 1) c) as [d c'].
  case_bool_decide; exact Hst.
Qed.

Lemma sendData_state data c : state (sendData data c).2 = state c.
Proof. unfold sendData. destruct (negb (isOpen c)); reflexivity. Qed.

(** A step keeps [state], or writes [CLOSING], or is the worker's
    [setState(CLOSED)] after its last block. *)
Lemma step_state b l s s' :
  step b l s = Some s' ->
  state (conn s') = state (conn s)
  \/ state (conn s') = CLOSING
  \/ (state (conn s') = CLOSED /\ l = L_worker OS_none
      /\ wpc s = W_set_closed /\ wpc s' = W_done).
Proof.
  intros H. destruct l; simpl in H.
  - destruct b; simpl in H; unfold worker_step_sdl, worker_step_posix, drain_step in H;
      destruct (wpc s) eqn:Hw; try discriminate;
      step_cases H; try discriminate; simpl; auto;
      right; right; auto.
  - unfold close_step in H.
    destruct (callers s !! tid) as [[]|]; step_cases H; try discriminate; simpl; auto.
  - sender_cases H; left; reflexivity.
  - sender_cases H; left; reflexivity.
  - sender_cases H; left; reflexivity.
  - simplify_eq. left. apply receiveData_all_hinted_state.
  - case_bool_decide; [|discriminate]. simplify_eq. left. apply receiveData_hinted_state.
  - simplify_eq. left. apply receiveString_hinted_state.
Qed.

(** No step opens a connection again. *)
Lemma step_never_reopens b l s s' :
  step b l s = Some s' -> state (conn s) <> OPEN -> state (conn s') <> OPEN.
Proof.
  intros H Hno. destruct (step_state _ _ _ _ H) as [E | [E | [E _]]];
    rewrite E; auto; discriminate.
Qed.

Lemma step_keeps_close_inv b l s s' :
  step b l s = Some s' -> close_inv s -> close_inv s'.
Proof.
  intros H (Hst & Hcl & Hret).
  destruct l; simpl in H.
  - assert (wpc s <> W_done) as Hrun
      by (intros E; destruct b; simpl in H;
          unfold worker_step_sdl, worker_step_posix in H; rewrite E in H; discriminate).
    assert (forall tid, callers s !! tid <> Some C_returned) as Hnone
      by (intros tid E; apply Hrun, (Hret tid E)).
    destruct b; simpl in H; unfold worker_step_sdl, worker_step_posix, drain_step in H;
      destruct (wpc s) eqn:Hw; try discriminate;
      step_cases H; try discriminate; unfold close_inv; simpl in *;
      repeat split; simpl;
      repeat match goal with
             | |- context [if ?c then _ else _] => destruct c eqn:?
             end;
      simpl; rewrite ?Hw;
      try (intros tid E; simpl in E; exfalso; exact (Hnone tid E));
      simpl; auto; try lia; try discriminate;
      try match goal with
          | Hb : isOpen _ = false |- _ => apply bool_decide_eq_false in Hb; exact Hb
          | Hb : bool_decide (_ = OPEN) = false |- _ =>
              apply bool_decide_eq_false in Hb; exact Hb
          end.
  - unfold close_step in H. unfold close_inv.
    destruct (callers s !! tid) as [[]|] eqn:Hc; step_cases H; try discriminate; simpl.
    all: repeat split; auto.
    all: try (destruct (wpc s); auto; discriminate).
    all: intros tid' E; destruct (decide (tid = tid')) as [->|Hne];
      [ rewrite lookup_insert_eq in E | rewrite lookup_insert_ne in E by exact Hne; eauto ].
    all: try discriminate.
    all: try (destruct (isOpen (conn s)); discriminate).
    all: try (unfold isActive in *; case_bool_decide; simplify_eq; auto).
    all: eauto.
  - sender_cases H; unfold close_inv; simpl; auto.
  - sender_cases H; unfold close_inv; simpl; auto.
  - sender_cases H; unfold close_inv; simpl; auto.
  - simplify_eq. unfold close_inv. simpl. rewrite receiveData_all_hinted_state. auto.
  - case_bool_decide; [|discriminate]. simplify_eq. unfold close_inv. simpl.
    rewrite receiveData_hinted_state. auto.
  - simplify_eq. unfold close_inv. simpl. rewrite receiveString_hinted_state. auto.
Qed.

Lemma new_system_close_inv socket address : close_inv (new_system socket address).
Proof.
  unfold close_inv, new_system. simpl. repeat split; auto.
  intros tid E. rewrite lookup_empty in E. discriminate.
Qed.

Lemma exec_keeps_close_inv b tr : forall s s',
  exec b tr s = Some s' -> close_inv s -> close_inv s'.
Proof.
  induction tr as [|l tr IH]; intros s s' H Hinv; simpl in H.
  - simplify_eq. exact Hinv.
  - destruct (step b l s) as [s1|] eqn:E; [|discriminate].
    eapply IH; [exact H|]. eapply step_keeps_close_inv; eassumption.
Qed.

Lemma exec_never_reopens b tr : forall s s',
  exec b tr s = Some s' -> state (conn s) <> OPEN -> state (conn s') <> OPEN.
Proof.
  induction tr as [|l tr IH]; intros s s' H Hno; simpl in H.
  - simplify_eq. exact Hno.
  - destruct (step b l s) as [s1|] eqn:E; [|discriminate].
    eapply IH; [exact H|]. eapply step_never_reopens; eassumption.
Qed.

(** A whole [close()] by a thread that is not inside one, on a connection
    whose worker is through: two steps that change nothing but the place
    of the thread. *)
Lemma close_again_is_noop b tid s :
  wpc s = W_done -> state (conn s) <> OPEN ->
  callers s !! tid = None \/ callers s !! tid = Some C_returned ->
  exists s1 s2,
    step b (L_close tid) s = Some s1
    /\ step b (L_close tid) s1 = Some s2
    /\ callers s2 !! tid = Some C_returned
    /\ conn s2 = conn s /\ wpc s2 = wpc s
    /\ warnings s2 = warnings s /\ socket_closes s2 = socket_closes s.
Proof.
  intros Hw Hst Hc.
  assert (isOpen (conn s) = false) as Hopen by (apply bool_decide_eq_false; exact Hst).
  assert (close_step tid s = Some (with_caller tid C_active s)) as E1.
  { unfold close_step. destruct Hc as [-> | ->]; rewrite Hopen; reflexivity. }
  assert (close_step tid (with_caller tid C_active s)
          = Some (with_caller tid C_returned (with_caller tid C_active s))) as E2.
  { unfold close_step. simpl. rewrite lookup_insert_eq.
    unfold isActive. simpl. rewrite Hw. reflexivity. }
  eexists _, _. simpl. split; [exact E1|]. split; [exact E2|].
  simpl. rewrite lookup_insert_eq. repeat split; reflexivity.
Qed.

(** Without [close()] the states are seen in their order: the worker
    writes [CLOSING] from inside its loops and [CLOSED] when it ends. *)
Lemma step_rank b l s s' :
  is_close l = false ->
  step b l s = Some s' ->
  closed_means_done s ->
  closed_means_done s'
  /\ (state_rank (state (conn s)) <= state_rank (state (conn s')))%nat.
Proof.
  intros Hl H J. unfold closed_means_done in *.
  destruct l; try discriminate Hl; simpl in H.
  - assert (state (conn s) <> CLOSED) as Hnc
      by (intros E; apply J in E; destruct b; simpl in H;
          unfold worker_step_sdl, worker_step_posix in H; rewrite E in H; discriminate).
    destruct b; simpl in H; unfold worker_step_sdl, worker_step_posix, drain_step in H;
      destruct (wpc s) eqn:Hw; try discriminate;
      step_cases H; try discriminate; simpl;
      repeat match goal with
             | |- context [if ?c then _ else _] => destruct c
             end;
      simpl; (split; [try discriminate; try (intros E; exfalso; exact (Hnc E)); auto|]);
      destruct (state (conn s)); simpl; try lia; congruence.
  - sender_cases H; simpl; auto.
  - sender_cases H; simpl; auto.
  - sender_cases H; simpl; auto.
  - simplify_eq. simpl. rewrite receiveData_all_hinted_state. auto.
  - case_bool_decide; [|discriminate]. simplify_eq. simpl.
    rewrite receiveData_hinted_state. auto.
  - simplify_eq. simpl. rewrite receiveString_hinted_state. auto.
Qed.

Lemma visited_rank b tr : forall s,
  forallb (fun l => negb (is_close l)) tr = true ->
  closed_means_done s ->
  Forall (fun s' => (state_rank (state (conn s)) <= state_rank (state (conn s')))%nat)
         (visited b tr s)
  /\ monotonic_states (observed_states b tr s).
Proof.
  induction tr as [|l tr IH]; intros s Hall J.
  - split; [constructor; [lia | constructor]|].
    intros [|i] [|j] st1 st2 Hij E1 E2; simpl in *; simplify_eq; lia.
  - simpl in Hall. apply andb_prop in Hall as [Hl Hall].
    apply negb_true_iff in Hl.
    unfold observed_states. simpl.
    destruct (step b l s) as [s1|] eqn:E.
    + destruct (step_rank _ _ _ _ Hl E J) as [J1 Hle].
      destruct (IH s1 Hall J1) as [Hfa Hmono].
      assert (Forall (fun s' => (state_rank (state (conn s)) <= state_rank (state (conn s')))%nat)
                     (visited b tr s1)) as Hfa'
        by (eapply Forall_impl; [exact Hfa | simpl; intros; lia]).
      split; [constructor; [lia | exact Hfa']|].
      intros [|i] [|j] st1 st2 Hij E1 E2; simpl in *; simplify_eq; try lia.
      * rewrite list_lookup_fmap in E2.
        destruct (visited b tr s1 !! j) as [sj|] eqn:Ej; simpl in E2; simplify_eq.
        rewrite Forall_lookup in Hfa'. exact (Hfa' _ _ Ej).
      * eapply (Hmono i j); [lia | exact E1 | exact E2].
    + split; [constructor; [lia | constructor]|].
      intros [|i] [|j] st1 st2 Hij E1 E2; simpl in *; simplify_eq; lia.
Qed.

(** C6.  In every run of a connection from its construction, once a
    thread has returned from [close()] the connection is not open, the
    worker has left [run], and the socket has been closed exactly once.
    Any thread that is not inside [close()] can then call it (as the
    destructor does): the call returns after its two tests and changes
    nothing. *)
Theorem close_returns_with_worker_done
    (b : backend) (tr : list label) (socket : Z) (address : IPv4Address)
    (s : system) (tid : nat) :
  exec b tr (new_system socket address) = Some s ->
  callers s !! tid = Some C_returned ->
  isOpen (conn s) = false
  /\ isActive s = false
  /\ wpc s = W_done
  /\ socket_closes s = 1%nat
  /\ forall tid',
       callers s !! tid' = None \/ callers s !! tid' = Some C_returned ->
       exists s1 s2,
         step b (L_close tid') s = Some s1
         /\ step b (L_close tid') s1 = Some s2
         /\ callers s2 !! tid' = Some C_returned
         /\ conn s2 = conn s /\ wpc s2 = wpc s
         /\ warnings s2 = warnings s /\ socket_closes s2 = socket_closes s.
Proof.
  intros Hrun Hret.
  pose proof (exec_keeps_close_inv _ _ _ _ Hrun (new_system_close_inv socket address))
    as (Hst & Hcl & Hdone).
  pose proof (Hdone tid Hret) as Hw. rewrite Hw in Hst, Hcl. simpl in Hcl.
  split; [apply bool_decide_eq_false; exact Hst|].
  split; [unfold isActive; rewrite Hw; reflexivity|].
  split; [exact Hw|]. split; [exact Hcl|].
  intros tid' Hc. apply close_again_is_noop; assumption.
Qed.

(** C5, where the code departs from it.  In the run [close_race] the
    values of [state] are [OPEN], then [CLOSING], then [CLOSED] written by
    the worker after it closed the socket, and then [CLOSING] again,
    written by the thread in [close()] whose test [isOpen()] came before
    the worker left: the observations do not follow the order of the
    states.  That thread returns and the state stays [CLOSING]. *)
Theorem close_race_moves_state_back :
  observed_states POSIX close_race (new_system 5 loopback)
  = [OPEN; OPEN; OPEN; OPEN; OPEN; OPEN; OPEN; OPEN;
     CLOSING; CLOSING; CLOSING; CLOSED; CLOSING; CLOSING]
  /\ ~ monotonic_states (observed_states POSIX close_race (new_system 5 loopback))
  /\ exists s,
       exec POSIX close_race (new_system 5 loopback) = Some s
       /\ state (conn s) = CLOSING
       /\ wpc s = W_done
       /\ callers s !! 1%nat = Some C_returned.
Proof.
  assert (observed_states POSIX close_race (new_system 5 loopback)
          = [OPEN; OPEN; OPEN; OPEN; OPEN; OPEN; OPEN; OPEN;
             CLOSING; CLOSING; CLOSING; CLOSED; CLOSING; CLOSING]) as Hobs
    by (vm_compute; reflexivity).
  split; [exact Hobs|]. split.
  - rewrite Hobs. intros Hmono.
    specialize (Hmono 11%nat 12%nat CLOSED CLOSING). simpl in Hmono.
    specialize (Hmono ltac:(lia) eq_refl eq_refl). lia.
  - eexists. split; [vm_compute; reflexivity|].
    repeat split; vm_compute; reflexivity.
Qed.

(** ** [sendData] and [sendString] *)

(** C7.  [sendData] on an open connection appends the payload as one
    chunk at the end of the send queue and returns true; on a connection
    that is not open it returns false and the connection is unchanged.
    [sendString] is [sendData] on the bytes of the string. *)
Theorem sendData_enqueues_iff_open (c : TCPConnection) (data : list uint8_t) (str : string) :
  sendData data c
  = (if decide (state c = OPEN)
     then (true, set_outQueue (outQueue c ++ [data]) c)
     else (false, c))
  /\ sendString str c = sendData (list_byte_of_string str) c.
Proof.
  split; [|reflexivity].
  unfold sendData, isOpen. destruct (decide (state c = OPEN)) as [E|E].
  - rewrite bool_decide_eq_true_2 by exact E. reflexivity.
  - rewrite bool_decide_eq_false_2 by exact E. reflexivity.
Qed.

(** ** What the worker does when a call fails *)

(** C8 as stated fails with SDL2_net: [SDLNet_TCP_Recv] answers -1, the
    worker sets [CLOSING] and logs nothing. *)
Lemma sdl_recv_failure_is_not_logged :
  io_error SDL2_NET sdl_reading (OS_recv (-1) [x00; x00; x00; x00] 104 0)
  /\ ~ closes_with_one_warning SDL2_NET sdl_reading (OS_recv (-1) [x00; x00; x00; x00] 104 0).
Proof.
  split.
  - vm_compute. reflexivity.
  - intros H. destruct (H _ eq_refl) as [_ [w Hw]]. simpl in Hw.
    discriminate Hw.
Qed.

Lemma worker_error_step b a s s' :
  worker_step b a s = Some s' ->
  io_error b s a ->
  state (conn s') = CLOSING
  /\ warnings s' = warnings s ++ warnings_for b (wpc s) a.
Proof.
  intros H Herr. unfold io_error in Herr.
  destruct b; simpl in H; unfold worker_step_sdl, worker_step_posix, drain_step in H;
    destruct (wpc s) eqn:Hw; try contradiction;
    destruct a; try contradiction;
    step_cases H; try contradiction; try discriminate; simpl;
    rewrite ?app_nil_r; auto; try lia.
  all: destruct Herr as [? | (? & ? & ?)]; try discriminate; try lia; try contradiction.
Qed.

Lemma server_error_step b a s s' evs :
  server_worker_step b a s = Some (s', evs) ->
  server_io_error b s a ->
  serverState (server s') = CLOSING
  /\ exists error, server_warnings s' = server_warnings s ++ [WARN_strerror error].
Proof.
  intros H Herr. unfold server_io_error in Herr. unfold server_worker_step in H.
  destruct b; try contradiction.
  destruct (spc s) eqn:Hpc; try contradiction.
  destruct a; try contradiction.
  step_cases H; try discriminate; simpl; eauto.
  all: destruct Herr as [? | (? & ?)]; try lia; try contradiction.
Qed.

(** C8, amended.  A read of 0 bytes (with SDL2_net: of 0 bytes or fewer)
    makes the worker set [CLOSING] and log nothing.  A failure of [send],
    [poll] or [recv] makes it set [CLOSING], so that [isOpen()] is false
    from then on; without SDL2_net it logs exactly one warning, with
    SDL2_net it logs one warning for a failed socket check and none for a
    failed send or read.  The worker of a server does the same for a
    failed [poll].  Every step has a next system: nothing is thrown. *)
Theorem worker_failure_sets_closing
    (b : backend) (a : os_answer) (s s' : system) :
  worker_step b a s = Some s' ->
  (forall buffer error now,
     wpc s = W_recv -> a = OS_recv 0 buffer error now ->
     state (conn s') = CLOSING /\ warnings s' = warnings s)
  /\ (io_error b s a ->
      state (conn s') = CLOSING
      /\ isOpen (conn s') = false
      /\ warnings s' = warnings s ++ warnings_for b (wpc s) a
      /\ (b = POSIX -> exists w, warnings s' = warnings s ++ [w])
      /\ forall tr s'', exec b tr s' = Some s'' -> isOpen (conn s'') = false)
  /\ (forall srv srv' evs,
        server_worker_step b a srv = Some (srv', evs) ->
        server_io_error b srv a ->
        serverState (server srv') = CLOSING
        /\ exists error, server_warnings srv' = server_warnings srv ++ [WARN_strerror error]).
Proof.
  intros H. split; [|split].
  - intros buffer error now Hw ->.
    destruct b; simpl in H; unfold worker_step_sdl, worker_step_posix in H;
      rewrite Hw in H; simpl in H; simplify_eq; simpl; auto.
  - intros Herr. destruct (worker_error_step _ _ _ _ H Herr) as [Hst Hlog].
    split; [exact Hst|]. split; [unfold isOpen; rewrite Hst; reflexivity|].
    split; [exact Hlog|]. split.
    + intros ->. rewrite Hlog. unfold io_error in Herr.
      destruct (wpc s); try contradiction; destruct a; try contradiction; simpl; eauto.
    + intros tr s'' Hrun. apply bool_decide_eq_false.
      eapply exec_never_reopens; [exact Hrun|]. rewrite Hst. discriminate.
  - intros srv srv' evs Hs Herr. eapply server_error_step; eassumption.
Qed.

(** ** The queue of accepted connections *)

Lemma server_step_queue b l s s' evs :
  server_step b l s = Some (s', evs) ->
  newConnectionsQueue (server s) ++ accepted_of evs
  = taken_of evs ++ newConnectionsQueue (server s').
Proof.
  intros H. destruct l; simpl in H.
  - unfold server_worker_step, push_new_connection in H.
    destruct (spc s); destruct b; try discriminate;
      step_cases H; try discriminate;
      repeat match goal with
             | H : context [match queueMutex ?s with _ => _ end] |- _ =>
               destruct (queueMutex s)
             end;
      simplify_eq; simpl; rewrite ?app_nil_r;
      repeat match goal with
             | |- context [if ?c then _ else _] => destruct c
             end;
      reflexivity.
  - unfold server_close_step in H.
    destruct (closers s !! tid) as [[| | |[]]|]; simpl in H;
      repeat match goal with
             | H : context [match queueMutex ?s with _ => _ end] |- _ =>
               destruct (queueMutex s)
             | H : context [match newConnectionsQueue ?s with _ => _ end] |- _ =>
               destruct (newConnectionsQueue s) eqn:?
             | H : context [match objects ?s !! ?r with _ => _ end] |- _ =>
               destruct (objects s !! r)
             | H : context [match close_step ?t ?o with _ => _ end] |- _ =>
               destruct (close_step t o)
             | H : context [if ?c then _ else _] |- _ => destruct c
             end;
      simplify_eq; simpl; rewrite ?app_nil_r; auto.
  - destruct (queueMutex s); [discriminate|].
    unfold getIncomingConnection in H.
    destruct (newConnectionsQueue (server s)) eqn:E; simplify_eq; simpl;
      rewrite ?E, ?app_nil_r; reflexivity.
  - destruct (objects s !! r) as [o|]; [|discriminate].
    destruct (step b l o); simplify_eq. simpl. rewrite app_nil_r. reflexivity.
Qed.

Lemma accepted_of_app e1 e2 : accepted_of (e1 ++ e2) = accepted_of e1 ++ accepted_of e2.
Proof. apply omap_app. Qed.
Lemma taken_of_app e1 e2 : taken_of (e1 ++ e2) = taken_of e1 ++ taken_of e2.
Proof. apply omap_app. Qed.

Lemma server_exec_queue b tr : forall s s' evs,
  server_exec b tr s = Some (s', evs) ->
  newConnectionsQueue (server s) ++ accepted_of evs
  = taken_of evs ++ newConnectionsQueue (server s').
Proof.
  induction tr as [|l tr IH]; intros s s' evs H; simpl in H.
  - simplify_eq. simpl. rewrite app_nil_r. reflexivity.
  - destruct (server_step b l s) as [[s1 e1]|] eqn:E1; [|discriminate].
    destruct (server_exec b tr s1) as [[s2 e2]|] eqn:E2; [|discriminate].
    simplify_eq. rewrite accepted_of_app, taken_of_app.
    rewrite app_assoc, (server_step_queue _ _ _ _ _ E1).
    rewrite <- !app_assoc. f_equal. apply IH. exact E2.
Qed.

Lemma returned_sublist_taken evs : sublist (returned_of evs) (taken_of evs).
Proof.
  induction evs as [|e evs IH]; simpl.
  - constructor.
  - destruct e as [r|[r|]|r]; simpl.
    + exact IH.
    + apply sublist_skip. exact IH.
    + exact IH.
    + apply sublist_cons. exact IH.
Qed.

Lemma returned_is_taken evs : dropped_of evs = [] -> returned_of evs = taken_of evs.
Proof.
  induction evs as [|e evs IH]; simpl; [reflexivity|].
  destruct e as [r|[r|]|r]; simpl; auto.
  - intros H. f_equal. auto.
  - discriminate.
Qed.

(** C9.  [getIncomingConnection] takes the element at the front of
    [newConnectionsQueue] and returns it, or returns the null reference
    and changes nothing when the queue is empty.  In every run of a
    server, the connections that were pending at its start followed by
    those the worker accepted are, in this order, the connections taken
    from the queue followed by those still pending.  So the connections
    returned come in the order they were accepted; they are all that was
    taken, hence a prefix, as long as no [close()] dropped a pending one. *)
Theorem getIncomingConnection_fifo
    (b : backend) (tr : list server_label) (s s' : server_sys) (evs : list event) :
  server_exec b tr s = Some (s', evs) ->
  (forall srv,
     getIncomingConnection srv
     = (head (newConnectionsQueue srv),
        mkServer (tcpServerSocket srv) (serverState srv) (tail (newConnectionsQueue srv))))
  /\ newConnectionsQueue (server s) ++ accepted_of evs
     = taken_of evs ++ newConnectionsQueue (server s')
  /\ sublist (returned_of evs) (newConnectionsQueue (server s) ++ accepted_of evs)
  /\ (dropped_of evs = [] ->
      prefix (returned_of evs) (newConnectionsQueue (server s) ++ accepted_of evs)).
Proof.
  intros H. pose proof (server_exec_queue _ _ _ _ _ H) as Hq.
  split.
  - intros [sock st [|r q]]; reflexivity.
  - split; [exact Hq|]. split.
    + rewrite Hq. apply sublist_inserts_r. apply returned_sublist_taken.
    + intros Hd. rewrite Hq, (returned_is_taken _ Hd). apply prefix_app_r. reflexivity.
Qed.

(** ** [accept] in the worker of a server *)

(** C10.  Without SDL2_net, when [poll] reports the listening socket
    readable the worker calls [accept] and takes whatever it returned, -1
    included: it builds a connection from it and appends it to
    [newConnectionsQueue], and the state of the server and its log stay as
    they are.  The new connection is open and its worker at its start,
    with that value as its socket. *)
Theorem accept_result_is_not_checked
    (s : server_sys) (result error clientSocket : Z) (remoteIp : IPv4Address) :
  spc s = S_poll ->
  queueMutex s = None ->
  result > 0 ->
  exists s',
    server_exec POSIX
      [SL_worker (OS_poll result POLLIN error);
       SL_worker (OS_accept clientSocket remoteIp)] s
    = Some (s', [Ev_accepted (length (objects s))])
    /\ newConnectionsQueue (server s')
       = newConnectionsQueue (server s) ++ [length (objects s)]
    /\ objects s' !! length (objects s) = Some (new_system clientSocket remoteIp)
    /\ tcpSocket (conn (new_system clientSocket remoteIp)) = clientSocket
    /\ isOpen (conn (new_system clientSocket remoteIp)) = true
    /\ wpc (new_system clientSocket remoteIp) = W_start
    /\ serverState (server s') = serverState (server s)
    /\ server_warnings s' = server_warnings s
    /\ spc s' = S_loop.
Proof.
  intros Hpc Hq Hres. eexists.
  unfold server_exec, server_step, server_worker_step. rewrite Hpc.
  rewrite bool_decide_eq_false_2 by lia.
  rewrite bool_decide_eq_true_2 by exact Hres.
  rewrite bool_decide_eq_false_2 by (intros H; apply H; reflexivity).
  simpl. rewrite Hq. simpl.
  split; [reflexivity|]. simpl. split; [reflexivity|].
  split; [|repeat split; reflexivity].
  rewrite lookup_app_r by lia. rewrite Nat.sub_diag. reflexivity.
Qed.

(** ** The theorems at the examples *)

Lemma receiveData_fifo_or_nothing_witness :
  inQueue_inv example_conn /\ 0 <= 2
  /\ (receiveData 5 example_conn = ([], example_conn))
  /\ (vsize (receiveData 2 example_conn).1 = 2 <-> 2 <= inQueueDataSize example_conn).
Proof.
  assert (inQueue_inv example_conn) as Hi by (split; vm_compute; reflexivity).
  assert (0 <= 2) as Hn by lia.
  split; [exact Hi|]. split; [exact Hn|]. split.
  - apply (receiveData_fifo_or_nothing example_conn 5 Hi); [lia | vm_compute; reflexivity].
  - exact (proj2 (proj2 (receiveData_fifo_or_nothing example_conn 2 Hi Hn))).
Defined.

Lemma receiveString_up_to_delimiter_witness :
  inQueue_inv example_text
  /\ ((receiveString x00 example_text).1 <> EmptyString
      <-> x00 ∈ queue_bytes (inQueue example_text)).
Proof.
  assert (inQueue_inv example_text) as Hi by (split; vm_compute; reflexivity).
  split; [exact Hi|].
  exact (proj2 (proj2 (receiveString_up_to_delimiter example_text x00 Hi))).
Defined.

Lemma inQueue_invariant_every_step_witness :
  sys_inv example_system
  /\ extracts (L_receiveData 4 3) example_system 3
  /\ sys_inv (with_conn (receiveData 3 example_conn).2 example_system)
  /\ delivered_by (L_receiveData 4 3) example_system
     = take 3 (queue_bytes (inQueue example_conn))
  /\ inQueueDataSize (receiveData 3 example_conn).2 = inQueueDataSize example_conn - 3.
Proof.
  assert (sys_inv example_system) as Hs
    by (split; [split; vm_compute; reflexivity | exact I]).
  assert (extracts (L_receiveData 4 3) example_system 3) as Hex
    by (split; [vm_compute; split; congruence | split; [lia | reflexivity]]).
  assert (step POSIX (L_receiveData 4 3) example_system
          = Some (with_conn (receiveData 3 example_conn).2 example_system)) as Hstep
    by (vm_compute; reflexivity).
  assert (queue_size (inQueue (conn (with_conn (receiveData 3 example_conn).2 example_system)))
          < SIZE_MODULUS) as Hfit by (vm_compute; reflexivity).
  split; [exact Hs|]. split; [exact Hex|].
  destruct (inQueue_invariant_every_step POSIX (L_receiveData 4 3) example_system
              (with_conn (receiveData 3 example_conn).2 example_system) Hs Hstep Hfit)
    as (Hs' & _ & Hext & _).
  destruct (Hext 3 Hex) as (Hd & _ & _ & Hc).
  split; [exact Hs'|]. split; [exact Hd | exact Hc].
Defined.

Lemma close_returns_with_worker_done_witness :
  exec POSIX close_run (new_system 5 loopback) = Some after_close_run
  /\ callers after_close_run !! 1%nat = Some C_returned
  /\ isOpen (conn after_close_run) = false
  /\ socket_closes after_close_run = 1%nat.
Proof.
  assert (exec POSIX close_run (new_system 5 loopback) = Some after_close_run) as Hrun
    by (vm_compute; reflexivity).
  assert (callers after_close_run !! 1%nat = Some C_returned) as Hret
    by (vm_compute; reflexivity).
  split; [exact Hrun|]. split; [exact Hret|].
  destruct (close_returns_with_worker_done POSIX close_run 5 loopback
              after_close_run 1%nat Hrun Hret) as (H1 & _ & _ & H2 & _).
  split; [exact H1 | exact H2].
Defined.

Lemma worker_failure_sets_closing_witness :
  io_error POSIX posix_reading (OS_recv (-1) [x00; x00; x00; x00] 104 0)
  /\ state (conn (default posix_reading
                   (worker_step POSIX (OS_recv (-1) [x00; x00; x00; x00] 104 0)
                      posix_reading))) = CLOSING.
Proof.
  assert (io_error POSIX posix_reading (OS_recv (-1) [x00; x00; x00; x00] 104 0)) as He
    by (vm_compute; reflexivity).
  split; [exact He|].
  apply (worker_failure_sets_closing POSIX (OS_recv (-1) [x00; x00; x00; x00] 104 0)
           posix_reading); [vm_compute; reflexivity | exact He].
Defined.

Lemma getIncomingConnection_fifo_witness :
  server_exec POSIX server_run (new_server 4) = Some after_server_run
  /\ prefix (returned_of after_server_run.2)
            (newConnectionsQueue (server (new_server 4)) ++ accepted_of after_server_run.2).
Proof.
  assert (server_exec POSIX server_run (new_server 4) = Some after_server_run) as Hrun
    by (vm_compute; reflexivity).
  split; [exact Hrun|].
  apply (getIncomingConnection_fifo POSIX server_run (new_server 4)
           after_server_run.1 after_server_run.2).
  - exact Hrun.
  - vm_compute. reflexivity.
Defined.

Lemma accept_result_is_not_checked_witness :
  exists s',
    server_exec POSIX
      [SL_worker (OS_poll 1 POLLIN 0); SL_worker (OS_accept (-1) loopback)]
      (with_spc S_poll server_accepting)
    = Some (s', [Ev_accepted 0%nat])
    /\ objects s' !! 0%nat = Some (new_system (-1) loopback).
Proof.
  destruct (accept_result_is_not_checked (with_spc S_poll server_accepting)
              1 0 (-1) loopback) as (s' & H1 & _ & H2 & _).
  - reflexivity.
  - reflexivity.
  - lia.
  - exists s'. split; [exact H1 | exact H2].
Defined.

(** * Further properties of the queue functions *)

(** ** [receiveData()] and reads in sequence *)

(** What a read of [n] bytes that the counter covers gives and leaves. *)
Lemma receiveData_covered c n :
  inQueue_inv c -> 0 <= n <= inQueueDataSize c ->
  exists c',
    receiveData n c = (take (Z.to_nat n) (queue_bytes (inQueue c)), c')
    /\ queue_bytes (inQueue c') = drop (Z.to_nat n) (queue_bytes (inQueue c))
    /\ inQueueDataSize c' = inQueueDataSize c - n
    /\ inQueue_inv c'.
Proof.
  intros Hinv Hn. unfold receiveData, receiveData_hinted.
  rewrite bool_decide_eq_true_2 by lia.
  pose proof (extractDataFromInQueue_inv n c Hinv (proj1 Hn)) as Hinv'.
  destruct (decide (n = 0)) as [-> | Hn0].
  - rewrite extractDataFromInQueue_none by (left; reflexivity).
    exists c. simpl. repeat split; auto; try lia; apply Hinv.
  - destruct (extractDataFromInQueue_some n c Hinv) as (q' & E & Hb & _); [lia|].
    rewrite E in *. eexists. split; [reflexivity|]. simpl in *. auto.
Qed.

(** X1.  On a connection whose receive queue satisfies its invariant,
    [receiveData()] returns all the bytes of the queue in arrival order and
    leaves no byte behind with the counter at 0; called again at once it
    returns nothing and changes nothing. *)
Theorem receiveData_all_drains (c : TCPConnection) :
  inQueue_inv c ->
  (receiveData_all c).1 = queue_bytes (inQueue c)
  /\ queue_bytes (inQueue (receiveData_all c).2) = []
  /\ inQueueDataSize (receiveData_all c).2 = 0
  /\ receiveData_all (receiveData_all c).2 = ([], (receiveData_all c).2).
Proof.
  intros Hinv. pose proof Hinv as [Hsz Hfit].
  pose proof (queue_size_nonneg (inQueue c)) as Hnn.
  assert (forall c0, inQueueDataSize c0 = 0 -> receiveData_all c0 = ([], c0)) as Hzero
    by (intros c0 E; unfold receiveData_all, receiveData_all_hinted;
        rewrite bool_decide_eq_false_2 by lia; reflexivity).
  destruct (decide (inQueueDataSize c = 0)) as [E0 | Hpos].
  - rewrite (Hzero c E0). simpl.
    assert (queue_bytes (inQueue c) = []) as Hb.
    { unfold queue_size, vsize in Hsz. destruct (queue_bytes (inQueue c)); [reflexivity|].
      simpl in Hsz. lia. }
    rewrite Hb. repeat split; auto.
  - destruct (extractDataFromInQueue_some (inQueueDataSize c) c Hinv) as (q' & E & Hb & _);
      [lia|].
    assert (Z.to_nat (inQueueDataSize c) = length (queue_bytes (inQueue c))) as Hlen
      by (unfold queue_size, vsize in Hsz; lia).
    rewrite Hlen, firstn_all, Z.sub_diag in E. rewrite Hlen, drop_all in Hb.
    assert (receiveData_all c = (queue_bytes (inQueue c), set_inQueue q' 0 c)) as Er.
    { unfold receiveData_all, receiveData_all_hinted.
      rewrite bool_decide_eq_true_2 by lia. exact E. }
    rewrite Er. simpl.
    split; [reflexivity|]. split; [exact Hb|]. split; [reflexivity|].
    apply Hzero. reflexivity.
Qed.

(** X2.  Two reads in a row of [n] and of [m] bytes, which the counter
    covers together, give the bytes that one read of [n + m] bytes gives,
    and leave the same bytes and the same counter. *)
Theorem receiveData_twice (c : TCPConnection) (n m : Z) :
  inQueue_inv c -> 0 <= n -> 0 <= m -> n + m <= inQueueDataSize c ->
  let r1 := receiveData n c in
  let r2 := receiveData m r1.2 in
  let r := receiveData (n + m) c in
  r1.1 ++ r2.1 = r.1
  /\ queue_bytes (inQueue r2.2) = queue_bytes (inQueue r.2)
  /\ inQueueDataSize r2.2 = inQueueDataSize r.2.
Proof.
  intros Hinv Hn Hm Hsum. cbv zeta.
  destruct (receiveData_covered c n Hinv) as (c1 & E1 & Hb1 & Hs1 & Hinv1); [lia|].
  rewrite E1. simpl.
  destruct (receiveData_covered c1 m Hinv1) as (c2 & E2 & Hb2 & Hs2 & _); [lia|].
  rewrite E2. simpl.
  destruct (receiveData_covered c (n + m) Hinv) as (c3 & E3 & Hb3 & Hs3 & _); [lia|].
  rewrite E3. simpl.
  rewrite Hb2, Hb3, Hb1, Hs2, Hs3, Hs1.
  rewrite Z2Nat.inj_add by lia.
  split; [|split; [|lia]].
  - apply take_take_drop.
  - rewrite drop_drop. reflexivity.
Qed.

(** ** The bytes and chunks that pass through the queues *)

Lemma extract_loop_bytes q : forall remainingBytes data p,
  exists q1 k,
    extract_loop q remainingBytes data p
      = (q1, data ++ take (Z.to_nat remainingBytes) (queue_bytes q), (p + k)%nat)
    /\ length q1 = length q
    /\ queue_bytes (drop k q1) = drop (Z.to_nat remainingBytes) (queue_bytes q).
Proof.
  induction q as [|it rest IH]; intros rem data p.
  - exists [], 0%nat. simpl. rewrite take_nil, drop_nil, app_nil_r, Nat.add_0_r. auto.
  - simpl extract_loop. case_bool_decide as Hpos.
    + case_bool_decide as Hfull.
      * destruct (IH (rem - vsize it) (data ++ it) (S p)) as (q1 & k & E & Hl & Hb).
        rewrite E. exists (it :: q1), (S k).
        assert (Z.to_nat rem = (length it + Z.to_nat (rem - vsize it))%nat) as Hsplit
          by (unfold vsize in *; lia).
        unfold queue_bytes in *. simpl concat. rewrite Hsplit.
        rewrite take_app_add, drop_app_add, <- app_assoc. simpl.
        repeat split; auto.
      * rewrite extract_loop_zero. exists (drop (Z.to_nat rem) it :: rest), 0%nat.
        assert (Z.to_nat rem <= length it)%nat as Hle by (unfold vsize in *; lia).
        unfold queue_bytes. simpl concat.
        rewrite take_app_le, drop_app_le by exact Hle.
        rewrite Nat.add_0_r. simpl. auto.
    + exists (it :: rest), 0%nat.
      assert (Z.to_nat rem = 0%nat) as -> by lia.
      unfold queue_bytes. simpl. rewrite app_nil_r, Nat.add_0_r. auto.
Qed.

(** The bytes of the queue are the bytes taken followed by the bytes left,
    whatever the counter says. *)
Lemma extractDataFromInQueue_bytes numBytes c :
  queue_bytes (inQueue c)
  = (extractDataFromInQueue numBytes c).1
    ++ queue_bytes (inQueue (extractDataFromInQueue numBytes c).2).
Proof.
  unfold extractDataFromInQueue.
  destruct (bool_decide (inQueueDataSize c < numBytes) || bool_decide (numBytes = 0));
    [reflexivity|].
  destruct (extract_loop_bytes (inQueue c) numBytes [] 0%nat) as (q1 & k & E & Hl & Hb).
  rewrite E. simpl. rewrite pop_front_n_drop.
  assert ((if bool_decide (k = length q1) then [] else drop k q1) = drop k q1) as ->.
  { case_bool_decide as Hk; [|reflexivity]. rewrite Hk, drop_all. reflexivity. }
  rewrite Hb, take_drop. reflexivity.
Qed.

Lemma receiveString_hinted_bytes hint delimiter c :
  queue_bytes (inQueue c)
  = list_byte_of_string (receiveString_hinted hint delimiter c).1
    ++ queue_bytes (inQueue (receiveString_hinted hint delimiter c).2)
  /\ outQueue (receiveString_hinted hint delimiter c).2 = outQueue c.
Proof.
  unfold receiveString_hinted. case_bool_decide; [split; reflexivity|].
  destruct (scan_queue delimiter (inQueue c) 0 false) as [pos [|]]; [|split; reflexivity].
  pose proof (extractDataFromInQueue_bytes (size_t_add pos 1) c) as Hb.
  pose proof (extractDataFromInQueue_state (size_t_add pos 1) c) as [_ Ho].
  destruct (extractDataFromInQueue (size_t_add pos 1) c) as [d c'].
  simpl in *. case_bool_decide as Hd; simpl.
  - subst d. auto.
  - rewrite list_byte_of_string_of_list_byte. auto.
Qed.

Lemma step_moves_queues b l s s' :
  step b l s = Some s' ->
  queue_bytes (inQueue (conn s)) ++ arrived_by l s
  = delivered_by l s ++ queue_bytes (inQueue (conn s'))
  /\ outQueue (conn s) ++ enqueued_by l s = popped_by l s ++ outQueue (conn s').
Proof.
  intros H. destruct l; simpl in H.
  - unfold arrived_by, popped_by, delivered_by, enqueued_by.
    destruct b; simpl in H; unfold worker_step_sdl, worker_step_posix, drain_step in H;
      destruct (wpc s) eqn:Hw; try discriminate;
      step_cases H; try discriminate; simpl;
      repeat match goal with
             | |- context [if ?c then _ else _] => destruct c eqn:?
             end;
      simpl; rewrite ?app_nil_r;
      repeat match goal with
             | E : outQueue _ = _ |- _ => rewrite E
             end;
      rewrite ?bool_decide_eq_true_2 by assumption;
      rewrite ?bool_decide_eq_false_2 by assumption;
      simpl; rewrite ?app_nil_r;
      try (split; reflexivity).
    all: unfold queue_bytes; rewrite concat_app; simpl; rewrite app_nil_r;
      split; reflexivity.
  - unfold close_step in H. unfold arrived_by, popped_by. simpl.
    destruct (callers s !! tid) as [[]|]; step_cases H; try discriminate; simpl;
      rewrite ?app_nil_r; destruct (wpc s); auto.
  - sender_cases H; unfold arrived_by, popped_by, enqueued_by, delivered_by; simpl;
      rewrite ?app_nil_r; auto.
  - sender_cases H; unfold arrived_by, popped_by, enqueued_by, delivered_by; simpl;
      rewrite ?app_nil_r; auto.
  - unfold arrived_by, popped_by, enqueued_by, delivered_by.
    sender_cases H; simpl; rewrite ?app_nil_r; auto.
  - simplify_eq. unfold arrived_by, popped_by, enqueued_by, delivered_by. simpl.
    rewrite !app_nil_r. unfold receiveData_all_hinted. case_bool_decide; [|auto].
    split; [apply extractDataFromInQueue_bytes|].
    symmetry. apply extractDataFromInQueue_state.
  - case_bool_decide; [|discriminate]. simplify_eq.
    unfold arrived_by, popped_by, enqueued_by, delivered_by. simpl.
    rewrite !app_nil_r. unfold receiveData_hinted. case_bool_decide; [|auto].
    split; [apply extractDataFromInQueue_bytes|].
    symmetry. apply extractDataFromInQueue_state.
  - simplify_eq. unfold arrived_by, popped_by, enqueued_by, delivered_by. simpl.
    rewrite !app_nil_r.
    destruct (receiveString_hinted_bytes hint delimiter (conn s)) as [Hb Ho]. auto.
Qed.




(** * Further properties of the worker *)

(** ** The end of [run] *)

Lemma size_delete_sender (m : gmap nat (list uint8_t)) tid data :
  m !! tid = Some data -> size m = S (size (delete tid m)).
Proof.
  intros H. rewrite <- (insert_id m tid data H) at 1.
  rewrite <- insert_delete_eq. apply map_size_insert_None, lookup_delete_eq.
Qed.

(** The worker is never stuck before the end of [run]: at each of its
    places some answer lets it go on. *)
Lemma worker_can_step b s :
  place_of_backend b (wpc s) -> wpc s <> W_done ->
  exists a s1, worker_step b a s = Some s1.
Proof.
  intros Hp Hd.
  destruct b; simpl; unfold worker_step_sdl, worker_step_posix, drain_step;
    destruct (wpc s) eqn:Hw; try contradiction;
    try (exists OS_none; eexists; reflexivity);
    try (exists (OS_now 0); eexists; reflexivity);
    try (exists (OS_poll 0 0 0); eexists; reflexivity);
    try (exists (OS_recv 0 [] 0 0); eexists; reflexivity);
    try (exists (OS_close 0 0); eexists; reflexivity).
  all: destruct (outQueue (conn s));
    [ exists OS_none; eexists; reflexivity
    | exists (OS_send 0 0); case_bool_decide; eexists; reflexivity ].
Qed.

Lemma step_keeps_place b l s s' :
  step b l s = Some s' -> place_of_backend b (wpc s) -> place_of_backend b (wpc s').
Proof.
  intros H Hp. destruct l; simpl in H.
  - destruct b; simpl in H; unfold worker_step_sdl, worker_step_posix, drain_step in H;
      destruct (wpc s) eqn:Hw; try contradiction; try discriminate;
      step_cases H; try discriminate; simpl;
      repeat match goal with
             | |- context [if ?c then _ else _] => destruct c
             end;
      simpl; rewrite ?Hw; exact I.
  - assert (wpc s' = wpc s) as ->; [|exact Hp].
    unfold close_step in H.
    destruct (callers s !! tid) as [[]|]; step_cases H; try discriminate; reflexivity.
  - sender_cases H; exact Hp.
  - sender_cases H; exact Hp.
  - sender_cases H; exact Hp.
  - simplify_eq. exact Hp.
  - case_bool_decide; [|discriminate]. simplify_eq. exact Hp.
  - simplify_eq. exact Hp.
Qed.

Lemma exec_keeps_place b tr : forall s s',
  exec b tr s = Some s' -> place_of_backend b (wpc s) -> place_of_backend b (wpc s').
Proof.
  induction tr as [|l tr IH]; intros s s' H Hp; simpl in H.
  - simplify_eq. exact Hp.
  - destruct (step b l s) as [s1|] eqn:E; [|discriminate].
    eapply IH; [exact H|]. eapply step_keeps_place; eassumption.
Qed.

(** In every run from the construction the worker is at a place of the
    code of its backend. *)
Lemma worker_place_from_construction b tr socket address s :
  exec b tr (new_system socket address) = Some s -> place_of_backend b (wpc s).
Proof.
  intros H. apply (exec_keeps_place _ _ _ _ H). destruct b; exact I.
Qed.

Lemma step_towards_end b l s s' :
  state (conn s) <> OPEN ->
  step b l s = Some s' ->
  ((if is_worker l then 1 else 0) + worker_measure s' <= worker_measure s)%nat.
Proof.
  intros Hno H.
  assert (isOpen (conn s) = false) as Hopen by (apply bool_decide_eq_false; exact Hno).
  assert (mayBeOpen (conn s) = false) as Hmay by (apply bool_decide_eq_false; exact Hno).
  destruct l; simpl in H; simpl is_worker; cbv iota.
  - unfold worker_measure.
    destruct b; simpl in H; unfold worker_step_sdl, worker_step_posix, drain_step in H;
      rewrite ?Hopen, ?Hmay in H; simpl in H;
      destruct (wpc s) eqn:Hw; try discriminate;
      step_cases H; try discriminate; simpl;
      repeat match goal with
             | |- context [if ?c then _ else _] => destruct c eqn:?
             end;
      simpl;
      repeat match goal with
             | E : outQueue _ = _ |- _ => rewrite E
             end;
      rewrite ?Hw; simpl; lia.
  - unfold close_step in H. unfold worker_measure.
    destruct (callers s !! tid) as [[]|]; step_cases H; try discriminate; simpl; lia.
  - unfold sendData_test in H. rewrite Hopen in H. sender_cases H. lia.
  - unfold sendData_test in H. rewrite Hopen in H. sender_cases H. lia.
  - unfold worker_measure. sender_cases H. simpl.
    match goal with
    | E : senders s !! tid = Some _ |- _ => rewrite (size_delete_sender _ _ _ E)
    end.
    rewrite length_app. simpl. destruct (wpc s); try contradiction; lia.
  - simplify_eq. unfold worker_measure. simpl.
    unfold receiveData_all_hinted. case_bool_decide; [|simpl; lia].
    destruct (extractDataFromInQueue_state (inQueueDataSize (conn s)) (conn s)) as [_ ->]. lia.
  - case_bool_decide; [|discriminate]. simplify_eq. unfold worker_measure. simpl.
    unfold receiveData_hinted. case_bool_decide; [|simpl; lia].
    destruct (extractDataFromInQueue_state numBytes (conn s)) as [_ ->]. lia.
  - simplify_eq. unfold worker_measure. simpl.
    destruct (receiveString_hinted_bytes hint delimiter (conn s)) as [_ ->]. lia.
Qed.

Lemma exec_towards_end b tr : forall s s',
  state (conn s) <> OPEN ->
  exec b tr s = Some s' ->
  (worker_steps tr + worker_measure s' <= worker_measure s)%nat.
Proof.
  induction tr as [|l tr IH]; intros s s' Hno H; simpl in H.
  - simplify_eq. simpl. lia.
  - destruct (step b l s) as [s1|] eqn:E; [|discriminate].
    pose proof (step_towards_end _ _ _ _ Hno E) as H1.
    pose proof (IH _ _ (step_never_reopens _ _ _ _ E Hno) H) as H2.
    simpl. destruct (is_worker l); simpl in *; lia.
Qed.

(** X5.  Once the state of a connection is not [OPEN], the worker (at a
    place of the code of its backend, as it is in every run from the
    construction) is at most (chunks in the send queue) + (threads inside
    [sendData] past its test) + 8 steps away from the end of [run],
    whatever the calls it makes answer and whatever other threads do in
    between, late appends included: in every run from such a system the
    steps of the worker and what is left to the end add up to no more than
    that bound.  The worker is never stuck on the way: as long as it has
    not left [run], some answer lets it make its next step, which brings
    it nearer to the end.  So a [join()] on the worker waits for a bounded
    number of its steps. *)
Theorem worker_ends_after_close
    (b : backend) (tr : list label) (s s' : system) :
  state (conn s) <> OPEN ->
  place_of_backend b (wpc s) ->
  exec b tr s = Some s' ->
  (worker_steps tr + worker_measure s' <= worker_measure s)%nat
  /\ (worker_measure s
      <= length (outQueue (conn s)) + size (senders s) + 8)%nat
  /\ (worker_measure s' = 0%nat <-> wpc s' = W_done)
  /\ (wpc s' <> W_done ->
      exists a s'', step b (L_worker a) s' = Some s''
        /\ (1 + worker_measure s'' <= worker_measure s')%nat).
Proof.
  intros Hno Hp H. split; [eapply exec_towards_end; eassumption|]. split; [|split].
  - unfold worker_measure. destruct (wpc s); lia.
  - unfold worker_measure. destruct (wpc s'); split; intros E; try discriminate; try lia; auto.
  - intros Hd.
    destruct (worker_can_step b s' (exec_keeps_place _ _ _ _ H Hp) Hd) as (a & s'' & E).
    exists a, s''. split; [exact E|].
    apply (step_towards_end b (L_worker a) s' s''); [|exact E].
    eapply exec_never_reopens; eassumption.
Qed.

(** ** What no step changes *)

Lemma extractDataFromInQueue_fields numBytes c :
  remoteIp (extractDataFromInQueue numBytes c).2 = remoteIp c
  /\ tcpSocket (extractDataFromInQueue numBytes c).2 = tcpSocket c
  /\ lastActiveTime (extractDataFromInQueue numBytes c).2 = lastActiveTime c.
Proof.
  unfold extractDataFromInQueue.
  destruct (bool_decide (inQueueDataSize c < numBytes) || bool_decide (numBytes = 0));
    [repeat split; reflexivity|].
  destruct (extract_loop (inQueue c) numBytes [] 0) as [[q1 data] p].
  repeat split; reflexivity.
Qed.

Lemma receiveString_hinted_fields hint delimiter c :
  remoteIp (receiveString_hinted hint delimiter c).2 = remoteIp c
  /\ tcpSocket (receiveString_hinted hint delimiter c).2 = tcpSocket c
  /\ lastActiveTime (receiveString_hinted hint delimiter c).2 = lastActiveTime c.
Proof.
  unfold receiveString_hinted. case_bool_decide; [repeat split; reflexivity|].
  destruct (scan_queue delimiter (inQueue c) 0 false) as [pos [|]];
    [|repeat split; reflexivity].
  pose proof (extractDataFromInQueue_fields (size_t_add pos 1) c) as Hf.
  destruct (extractDataFromInQueue (size_t_add pos 1) c) as [d c'].
  case_bool_decide; exact Hf.
Qed.

(** What a step does to the address of the peer, to the socket and to
    the time of the last activity. *)
Lemma step_fields b l s s' :
  step b l s = Some s' ->
  remoteIp (conn s') = remoteIp (conn s)
  /\ (tcpSocket (conn s') = tcpSocket (conn s)
      \/ (b = POSIX /\ wpc s = W_cleanup /\ tcpSocket (conn s') = 0))
  /\ (lastActiveTime (conn s') = lastActiveTime (conn s)
      \/ (exists t, l = L_worker (OS_now t) /\ lastActiveTime (conn s') = t
                    /\ (wpc s = W_start \/ exists buffer k, wpc s = W_touch buffer k))
      \/ (exists k buffer error t,
            l = L_worker (OS_recv k buffer error t) /\ lastActiveTime (conn s') = t
            /\ b = POSIX /\ wpc s = W_recv /\ 0 < k)).
Proof.
  intros H. destruct l; simpl in H.
  - destruct b; simpl in H; unfold worker_step_sdl, worker_step_posix, drain_step in H;
      destruct (wpc s) eqn:Hw; try discriminate;
      step_cases H; try discriminate; simpl;
      repeat match goal with
             | |- context [if ?c then _ else _] => destruct c eqn:?
             end;
      simpl; (split; [reflexivity|]); (split; [auto|]); auto.
    + right. left. eauto 10.
    + right. left. eauto 10.
    + right. left. eauto 10.
    + right. right. exists ret, buffer, error, now. repeat split; auto. lia.
  - unfold close_step in H.
    destruct (callers s !! tid) as [[]|]; step_cases H; try discriminate; simpl; auto.
  - sender_cases H; simpl; auto.
  - sender_cases H; simpl; auto.
  - sender_cases H; simpl; auto.
  - simplify_eq. simpl. unfold receiveData_all_hinted. case_bool_decide; [|auto].
    destruct (extractDataFromInQueue_fields (inQueueDataSize (conn s)) (conn s))
      as (-> & -> & ->). auto.
  - case_bool_decide; [|discriminate]. simplify_eq. simpl.
    unfold receiveData_hinted. case_bool_decide; [|auto].
    destruct (extractDataFromInQueue_fields numBytes (conn s)) as (-> & -> & ->). auto.
  - simplify_eq. simpl.
    destruct (receiveString_hinted_fields hint delimiter (conn s)) as (-> & -> & ->). auto.
Qed.

Lemma step_keeps_socket_field b socket l s s' :
  step b l s = Some s' ->
  tcpSocket (conn s) = socket_field b socket (wpc s) ->
  tcpSocket (conn s') = socket_field b socket (wpc s').
Proof.
  intros H Hs.
  destruct (step_fields _ _ _ _ H) as (_ & Hsock & _).
  destruct l; simpl in H.
  - destruct b; simpl in H; unfold worker_step_sdl, worker_step_posix, drain_step in H;
      destruct (wpc s) eqn:Hw; try discriminate;
      step_cases H; try discriminate; simpl in *;
      repeat match goal with
             | |- context [if ?c then _ else _] => destruct c eqn:?
             end;
      simpl; rewrite ?Hw; simpl; auto.
  - assert (wpc s' = wpc s /\ tcpSocket (conn s') = tcpSocket (conn s)) as [-> ->]; [|exact Hs].
    unfold close_step in H.
    destruct (callers s !! tid) as [[]|]; step_cases H; try discriminate; simpl; auto.
  - sender_cases H; simpl in *; exact Hs.
  - sender_cases H; simpl in *; exact Hs.
  - sender_cases H; simpl in *; exact Hs.
  - simplify_eq. simpl in *. unfold receiveData_all_hinted. case_bool_decide; [|exact Hs].
    destruct (extractDataFromInQueue_fields (inQueueDataSize (conn s)) (conn s))
      as (_ & -> & _). exact Hs.
  - case_bool_decide; [|discriminate]. simplify_eq. simpl in *.
    unfold receiveData_hinted. case_bool_decide; [|exact Hs].
    destruct (extractDataFromInQueue_fields numBytes (conn s)) as (_ & -> & _). exact Hs.
  - simplify_eq. simpl in *.
    destruct (receiveString_hinted_fields hint delimiter (conn s)) as (_ & -> & _). exact Hs.
Qed.

(** X6.  In every run of a connection built from a socket and an
    address, the address of the peer stays the one it was built with, and
    the field [tcpSocket] holds the socket it was built with until the
    worker has closed it at the end of [run]; from then on it holds 0
    without SDL2_net, and still the old handle with SDL2_net. *)
Theorem address_and_socket_are_stable
    (b : backend) (tr : list label) (socket : Z) (address : IPv4Address) (s : system) :
  exec b tr (new_system socket address) = Some s ->
  remoteIp (conn s) = address
  /\ tcpSocket (conn s) = socket_field b socket (wpc s).
Proof.
  assert (forall tr s0 s1,
            exec b tr s0 = Some s1 ->
            remoteIp (conn s0) = address ->
            tcpSocket (conn s0) = socket_field b socket (wpc s0) ->
            remoteIp (conn s1) = address
            /\ tcpSocket (conn s1) = socket_field b socket (wpc s1)) as Hrun.
  { clear tr s. induction tr as [|l tr IH]; intros s0 s1 H Ha Hs; simpl in H.
    - simplify_eq. auto.
    - destruct (step b l s0) as [s2|] eqn:E; [|discriminate].
      apply (IH _ _ H).
      + destruct (step_fields _ _ _ _ E) as (-> & _). exact Ha.
      + eapply step_keeps_socket_field; eassumption. }
  intros H. apply (Hrun _ _ _ H); [reflexivity|]. destruct b; reflexivity.
Qed.

(** X7.  Only the worker writes [lastActiveTime]: when it starts, and
    after a read that returned at least one byte.  No call of a queue
    function, no step of [close()] and no [send], whether it succeeds or
    fails, changes it. *)
Theorem lastActiveTime_changes_on_receive_only
    (b : backend) (l : label) (s s' : system) :
  step b l s = Some s' ->
  lastActiveTime (conn s') <> lastActiveTime (conn s) ->
  exists a, l = L_worker a
    /\ (wpc s = W_start
        \/ (exists buffer k, b = SDL2_NET /\ wpc s = W_touch buffer k)
        \/ (exists k buffer error t,
              a = OS_recv k buffer error t /\ b = POSIX /\ wpc s = W_recv /\ 0 < k)).
Proof.
  intros H Hne.
  destruct (step_fields _ _ _ _ H) as (_ & _ & [E | [(t & -> & _ & Hpc) | Hrecv]]).
  - contradiction.
  - eexists. split; [reflexivity|]. destruct Hpc as [Hpc | (buffer & k & Hpc)]; [auto|].
    right. left. exists buffer, k. split; [|exact Hpc].
    destruct b; [reflexivity|]. simpl in H. unfold worker_step_posix in H.
    rewrite Hpc in H. discriminate.
  - destruct Hrecv as (k & buffer & error & t & -> & _ & Hb & Hpc & Hk).
    eexists. split; [reflexivity|]. right. right. eauto 10.
Qed.

(** ** The two parts of [sendData] *)

(** A call of [sendData] whose two parts run one after the other, with
    the worker outside its send loop, does what the function does: on an
    open connection the payload is appended and nobody is left inside the
    call, on any other connection nothing changes. *)
Lemma sendData_in_two_steps b tid data s :
  senders s !! tid = None -> wpc s <> W_drain ->
  exists s1,
    step b (L_sendData tid data) s = Some s1
    /\ (if (sendData data (conn s)).1
        then step b (L_enqueue tid) s1 = Some (with_conn (sendData data (conn s)).2 s)
        else s1 = s /\ (sendData data (conn s)).2 = conn s).
Proof.
  intros Hs Hw. simpl. unfold sendData_test, sendData_append, sendData.
  rewrite Hs. destruct (isOpen (conn s)); simpl.
  - eexists. split; [reflexivity|]. simpl. rewrite lookup_insert_eq.
    rewrite bool_decide_eq_false_2 by exact Hw.
    unfold with_senders, with_conn. simpl.
    rewrite delete_insert_id by exact Hs. destruct s; reflexivity.
  - eexists. split; [reflexivity|]. auto.
Qed.

(** ** After the state has left [OPEN] *)

(** A call of [sendData] or [sendString] that starts on a connection that
    is not open is over after its test and leaves everything as it is. *)
Lemma sendData_test_closed tid data s :
  state (conn s) <> OPEN -> senders s !! tid = None ->
  sendData_test tid data s = Some s.
Proof.
  intros Hno Hs. unfold sendData_test, isOpen.
  rewrite Hs, (bool_decide_eq_false_2 _ Hno). reflexivity.
Qed.

Lemma step_senders_closed b l s s' :
  state (conn s) <> OPEN ->
  step b l s = Some s' ->
  senders s' ⊆ senders s
  /\ Forall (fun data => exists tid, senders s !! tid = Some data) (enqueued_by l s)
  /\ (length (enqueued_by l s) + size (senders s') = size (senders s))%nat.
Proof.
  intros Hno H.
  assert (isOpen (conn s) = false) as Hopen by (apply bool_decide_eq_false; exact Hno).
  destruct l; simpl in H.
  - assert (senders s' = senders s) as ->; [|simpl; auto].
    destruct b; simpl in H; unfold worker_step_sdl, worker_step_posix, drain_step in H;
      destruct (wpc s) eqn:Hw; try discriminate;
      step_cases H; try discriminate; simpl;
      repeat match goal with
             | |- context [if ?c then _ else _] => destruct c
             end;
      reflexivity.
  - assert (senders s' = senders s) as ->; [|simpl; auto].
    unfold close_step in H.
    destruct (callers s !! tid) as [[]|]; step_cases H; try discriminate; reflexivity.
  - unfold sendData_test in H. rewrite Hopen in H. sender_cases H. simpl. auto.
  - unfold sendData_test in H. rewrite Hopen in H. sender_cases H. simpl. auto.
  - unfold enqueued_by. sender_cases H. simpl.
    match goal with
    | E : senders s !! tid = Some _ |- _ =>
      rewrite (size_delete_sender _ _ _ E); repeat split;
      [ apply delete_subseteq
      | constructor; [exists tid; exact E | constructor] ]
    end.
  - simplify_eq. simpl. auto.
  - case_bool_decide; [|discriminate]. simplify_eq. simpl. auto.
  - simplify_eq. simpl. auto.
Qed.

Lemma exec_senders_closed b tr : forall s s',
  state (conn s) <> OPEN ->
  exec b tr s = Some s' ->
  senders s' ⊆ senders s
  /\ Forall (fun data => exists tid, senders s !! tid = Some data)
            (collect enqueued_by b tr s)
  /\ (length (collect enqueued_by b tr s) + size (senders s') = size (senders s))%nat.
Proof.
  induction tr as [|l tr IH]; intros s s' Hno H; simpl in H.
  - simplify_eq. simpl. auto.
  - simpl. destruct (step b l s) as [s1|] eqn:E; [|discriminate].
    destruct (step_senders_closed _ _ _ _ Hno E) as (Hsub & Hall & Hsz).
    destruct (IH _ _ (step_never_reopens _ _ _ _ E Hno) H) as (IHsub & IHall & IHsz).
    split; [transitivity (senders s1); assumption|]. split.
    + apply Forall_app_2; [exact Hall|].
      eapply Forall_impl; [exact IHall|]. simpl.
      intros data (tid & Ht). exists tid. eapply lookup_weaken; eassumption.
    + rewrite length_app. lia.
Qed.

(** X8.  Once the state of a connection is not [OPEN], no call of
    [sendData] or [sendString] that starts is accepted: it is over after
    its test and changes nothing.  Only the threads that were inside
    [sendData] past its test when the state changed still append, each its
    own payload and each once: in every run from there no thread joins
    them, every chunk that is appended is the payload of one of them, and
    the appended chunks and the threads still on their way add up to the
    threads there were. *)
Theorem only_calls_past_the_test_append_after_close
    (b : backend) (tr : list label) (s s' : system)
    (tid : nat) (data : list uint8_t) (str : string) :
  state (conn s) <> OPEN ->
  exec b tr s = Some s' ->
  senders s' ⊆ senders s
  /\ Forall (fun chunk => exists tid', senders s !! tid' = Some chunk)
            (collect enqueued_by b tr s)
  /\ (length (collect enqueued_by b tr s) + size (senders s') = size (senders s))%nat
  /\ (senders s = ∅ -> collect enqueued_by b tr s = [])
  /\ (senders s' !! tid = None ->
      step b (L_sendData tid data) s' = Some s'
      /\ step b (L_sendString tid str) s' = Some s')
  /\ sendData data (conn s') = (false, conn s').
Proof.
  intros Hno H.
  destruct (exec_senders_closed _ _ _ _ Hno H) as (Hsub & Hall & Hsz).
  pose proof (exec_never_reopens _ _ _ _ H Hno) as Hno'.
  split; [exact Hsub|]. split; [exact Hall|]. split; [exact Hsz|]. split; [|split].
  - intros E. rewrite E, map_size_empty in Hsz.
    destruct (collect enqueued_by b tr s); [reflexivity | simpl in Hsz; lia].
  - intros Hs. simpl. split; apply sendData_test_closed; assumption.
  - unfold sendData, isOpen. rewrite (bool_decide_eq_false_2 _ Hno'). reflexivity.
Qed.

Lemma step_past_loop b l s s' :
  step b l s = Some s' -> past_loop (wpc s) ->
  past_loop (wpc s') /\ popped_by l s = [].
Proof.
  intros H Hp. unfold popped_by. destruct l; simpl in H.
  - destruct b; simpl in H; unfold worker_step_sdl, worker_step_posix in H;
      destruct (wpc s) eqn:Hw; try contradiction; try discriminate;
      step_cases H; try discriminate; simpl; auto.
  - assert (wpc s' = wpc s) as ->.
    { unfold close_step in H.
      destruct (callers s !! tid) as [[]|]; step_cases H; try discriminate; reflexivity. }
    auto.
  - sender_cases H; auto.
  - sender_cases H; auto.
  - sender_cases H; auto.
  - simplify_eq. auto.
  - case_bool_decide; [|discriminate]. simplify_eq. auto.
  - simplify_eq. auto.
Qed.

(** X9.  Once the worker has left its loop, it never touches the send
    queue again: in every run from there it removes no chunk, and the
    queue is what it was followed by what the threads inside [sendData]
    append.  So what was not sent by then, and what is appended later, is
    never sent. *)
Theorem worker_past_loop_sends_nothing
    (b : backend) (tr : list label) (s s' : system) :
  past_loop (wpc s) ->
  exec b tr s = Some s' ->
  past_loop (wpc s')
  /\ collect popped_by b tr s = []
  /\ outQueue (conn s') = outQueue (conn s) ++ collect enqueued_by b tr s.
Proof.
  revert s. induction tr as [|l tr IH]; intros s Hp H; simpl in H.
  - simplify_eq. simpl. rewrite app_nil_r. auto.
  - simpl. destruct (step b l s) as [s1|] eqn:E; [|discriminate].
    destruct (step_past_loop _ _ _ _ E Hp) as [Hp1 Hpop].
    destruct (step_moves_queues _ _ _ _ E) as [_ Hout].
    rewrite Hpop in Hout. simpl in Hout.
    destruct (IH s1 Hp1 H) as (Hp' & Hc & Hq).
    rewrite Hpop, Hc, Hq, <- Hout, <- app_assoc. auto.
Qed.

(** ** No empty chunk in the receive queue *)

Lemma extraction_shape_nonempty q n q' :
  extraction_shape q n q' ->
  Forall (fun data : chunk => data <> []) q ->
  Forall (fun data : chunk => data <> []) q'.
Proof.
  intros [k Hsz -> | k it r Hlk Hsz Hr ->] Hq.
  - apply Forall_drop. exact Hq.
  - constructor; [|apply Forall_drop; exact Hq].
    intros E. apply (f_equal length) in E. rewrite length_drop in E.
    unfold vsize in Hr. simpl in E. lia.
Qed.

Lemma extractDataFromInQueue_nonempty numBytes c :
  inQueue_inv c -> 0 <= numBytes -> chunks_nonempty c ->
  chunks_nonempty (extractDataFromInQueue numBytes c).2.
Proof.
  intros Hinv Hn Hc.
  destruct (decide (numBytes = 0 \/ inQueueDataSize c < numBytes)) as [H|H].
  - rewrite extractDataFromInQueue_none by exact H. exact Hc.
  - destruct (extractDataFromInQueue_some numBytes c Hinv) as (q' & E & _ & Hs); [lia|].
    rewrite E. unfold chunks_nonempty. simpl.
    eapply extraction_shape_nonempty; eassumption.
Qed.

Lemma step_keeps_chunks_nonempty b l s s' :
  sys_inv s -> chunks_nonempty (conn s) ->
  step b l s = Some s' ->
  chunks_nonempty (conn s').
Proof.
  intros [Hinv Hpc] Hc H.
  assert (0 <= inQueueDataSize (conn s)) as Hnn
    by (destruct Hinv as [-> _]; apply queue_size_nonneg).
  destruct l; simpl in H.
  - destruct b; simpl in H; unfold worker_step_sdl, worker_step_posix, drain_step in H;
      destruct (wpc s) eqn:Hw; try discriminate;
      step_cases H; try discriminate; unfold chunks_nonempty in *; simpl in *;
      repeat match goal with
             | |- context [if ?c then _ else _] => destruct c eqn:?
             end;
      simpl; auto.
    all: apply Forall_app; split; [exact Hc|].
    all: constructor; [|constructor].
    all: intros E; apply (f_equal length) in E; rewrite length_take in E;
      unfold vsize in Hpc; simpl in E; lia.
  - unfold close_step in H.
    destruct (callers s !! tid) as [[]|]; step_cases H; try discriminate; exact Hc.
  - sender_cases H; exact Hc.
  - sender_cases H; exact Hc.
  - sender_cases H; exact Hc.
  - simplify_eq. simpl. unfold receiveData_all_hinted. case_bool_decide; [|exact Hc].
    apply extractDataFromInQueue_nonempty; auto.
  - case_bool_decide; [|discriminate]. simplify_eq. simpl.
    unfold receiveData_hinted. case_bool_decide; [|exact Hc].
    apply extractDataFromInQueue_nonempty; auto; lia.
  - simplify_eq. simpl. unfold receiveString_hinted. case_bool_decide; [exact Hc|].
    destruct (scan_queue delimiter (inQueue (conn s)) 0 false) as [pos [|]]; [|exact Hc].
    pose proof (extractDataFromInQueue_nonempty (size_t_add pos 1) (conn s) Hinv
                  (size_t_add_nonneg _ _) Hc) as Hx.
    destruct (extractDataFromInQueue (size_t_add pos 1) (conn s)) as [d c'].
    case_bool_decide; exact Hx.
Qed.

(** X10.  The receive queue never holds an empty chunk: the worker
    appends only reads of at least one byte, and an extraction that cuts a
    chunk leaves a non-empty rest of it.  In a system that satisfies the
    invariant of the receive queue and has no empty chunk, every step
    keeps it so, and then the queue itself is empty exactly when the
    counter is 0. *)
Theorem no_empty_chunk_in_inQueue (b : backend) (l : label) (s s' : system) :
  sys_inv s -> chunks_nonempty (conn s) ->
  step b l s = Some s' ->
  queue_size (inQueue (conn s')) < SIZE_MODULUS ->
  chunks_nonempty (conn s')
  /\ (inQueue (conn s') = [] <-> inQueueDataSize (conn s') = 0).
Proof.
  intros Hs Hc H Hfit.
  pose proof (step_keeps_chunks_nonempty _ _ _ _ Hs Hc H) as Hc'.
  destruct (step_inv _ _ _ _ Hs H Hfit) as [[[Hsz _] _] _].
  split; [exact Hc'|]. rewrite Hsz. split.
  - intros ->. reflexivity.
  - intros Hz. unfold chunks_nonempty in Hc'.
    destruct (inQueue (conn s')) as [|it q]; [reflexivity|].
    inversion Hc' as [|? ? Hit _]; subst.
    rewrite queue_size_cons in Hz. pose proof (queue_size_nonneg q).
    destruct it; [contradiction|]. unfold vsize in Hz. simpl in Hz. lia.
Qed.

(** * Further properties of the server *)

Lemma close_step_is_step b tid o : close_step tid o = step b (L_close tid) o.
Proof. reflexivity. Qed.

(** Every connection a server has created keeps the invariant of
    [close()]. *)
Lemma server_step_keeps_objects b l s s' evs :
  server_step b l s = Some (s', evs) ->
  Forall close_inv (objects s) -> Forall close_inv (objects s').
Proof.
  intros H Ho. destruct l; simpl in H.
  - unfold server_worker_step, push_new_connection in H.
    destruct (spc s); destruct b; try discriminate;
      server_cases H; simplify_eq; simpl; auto;
      (apply Forall_app_2; [exact Ho|]);
      (apply Forall_cons_2; [apply new_system_close_inv | apply Forall_nil_2]).
  - unfold server_close_step in H.
    destruct (closers s !! tid) as [[| | |[]]|]; simpl in H;
      server_cases H; simplify_eq; simpl; auto;
      apply Forall_insert; auto;
      match goal with
      | E : close_step _ ?o = Some _, L : objects _ !! _ = Some ?o |- _ =>
        rewrite (close_step_is_step b) in E;
        apply (step_keeps_close_inv _ _ _ _ E);
        rewrite Forall_lookup in Ho; exact (Ho _ _ L)
      end.
  - server_cases H; simplify_eq.
    destruct (getIncomingConnection (server s)). simplify_eq. exact Ho.
  - server_cases H; simplify_eq. simpl. apply Forall_insert; auto.
    match goal with
    | E : step _ _ ?o = Some _, L : objects _ !! _ = Some ?o |- _ =>
      apply (step_keeps_close_inv _ _ _ _ E);
      rewrite Forall_lookup in Ho; exact (Ho _ _ L)
    end.
Qed.

Lemma step_keeps_worker_done b l o o' :
  step b l o = Some o' -> worker_done o -> worker_done o'.
Proof.
  unfold worker_done. intros H Hd. destruct l; simpl in H.
  - destruct b; simpl in H; unfold worker_step_sdl, worker_step_posix in H;
      rewrite Hd in H; discriminate.
  - unfold close_step in H.
    destruct (callers o !! tid) as [[]|]; step_cases H; try discriminate; exact Hd.
  - sender_cases H; exact Hd.
  - sender_cases H; exact Hd.
  - sender_cases H; exact Hd.
  - simplify_eq. exact Hd.
  - case_bool_decide; [|discriminate]. simplify_eq. exact Hd.
  - simplify_eq. exact Hd.
Qed.

(** A connection whose worker is done stays so, under its reference. *)
Lemma server_step_keeps_done b l s s' evs r o :
  server_step b l s = Some (s', evs) ->
  objects s !! r = Some o -> worker_done o ->
  exists o', objects s' !! r = Some o' /\ worker_done o'.
Proof.
  intros H Hr Hd.
  assert (forall r0 o0 o1,
            objects s !! r0 = Some o0 ->
            (worker_done o0 -> worker_done o1) ->
            exists o', <[r0 := o1]> (objects s) !! r = Some o' /\ worker_done o') as Hins.
  { intros r0 o0 o1 L Himp. destruct (decide (r0 = r)) as [->|Hne].
    - exists o1. split; [|apply Himp; congruence].
      apply list_lookup_insert_eq. eapply lookup_lt_Some; eassumption.
    - exists o. rewrite list_lookup_insert_ne by exact Hne. auto. }
  destruct l; simpl in H.
  - unfold server_worker_step, push_new_connection in H.
    destruct (spc s); destruct b; try discriminate;
      server_cases H; simplify_eq; simpl; eauto;
      exists o; split; auto; apply lookup_app_l_Some; exact Hr.
  - unfold server_close_step in H.
    destruct (closers s !! tid) as [[| | |[]]|]; simpl in H;
      server_cases H; simplify_eq; simpl; eauto;
      match goal with
      | E : close_step _ ?o0 = Some ?o1, L : objects _ !! _ = Some ?o0 |- _ =>
        apply (Hins _ _ _ L);
        rewrite (close_step_is_step b) in E;
        apply (step_keeps_worker_done _ _ _ _ E)
      end.
  - server_cases H; simplify_eq.
    destruct (getIncomingConnection (server s)). simplify_eq. eauto.
  - server_cases H; simplify_eq. simpl.
    match goal with
    | E : step _ _ ?o0 = Some ?o1, L : objects _ !! _ = Some ?o0 |- _ =>
      apply (Hins _ _ _ L); apply (step_keeps_worker_done _ _ _ _ E)
    end.
Qed.

(** A connection is dropped from the queue only when the [close()] on it
    has returned. *)
Lemma server_step_drops_closed b l s s' evs r :
  server_step b l s = Some (s', evs) ->
  r ∈ dropped_of evs ->
  exists o tid, objects s' !! r = Some o /\ callers o !! tid = Some C_returned.
Proof.
  intros H Hin. destruct l; simpl in H.
  - unfold server_worker_step, push_new_connection in H.
    destruct (spc s); destruct b; try discriminate;
      server_cases H; simplify_eq; simpl in Hin; inversion Hin.
  - unfold server_close_step in H.
    destruct (closers s !! tid) as [[| | |[]]|]; simpl in H;
      server_cases H; simplify_eq; simpl in Hin; try (inversion Hin; fail).
    all: apply list_elem_of_singleton in Hin; subst; simpl; eauto.
  - server_cases H; simplify_eq.
    destruct (getIncomingConnection (server s)) as [[?|] ?]; simplify_eq;
      simpl in Hin; inversion Hin.
  - server_cases H; simplify_eq. simpl in Hin. inversion Hin.
Qed.

Lemma server_exec_keeps_objects b tr : forall s s' evs,
  server_exec b tr s = Some (s', evs) ->
  Forall close_inv (objects s) -> Forall close_inv (objects s').
Proof.
  induction tr as [|l tr IH]; intros s s' evs H Ho; simpl in H.
  - simplify_eq. exact Ho.
  - destruct (server_step b l s) as [[s1 e1]|] eqn:E1; [|discriminate].
    destruct (server_exec b tr s1) as [[s2 e2]|] eqn:E2; [|discriminate].
    simplify_eq. eapply IH; [exact E2|]. eapply server_step_keeps_objects; eassumption.
Qed.

Lemma server_exec_keeps_done b tr : forall s s' evs r o,
  server_exec b tr s = Some (s', evs) ->
  objects s !! r = Some o -> worker_done o ->
  exists o', objects s' !! r = Some o' /\ worker_done o'.
Proof.
  induction tr as [|l tr IH]; intros s s' evs r o H Hr Hd; simpl in H.
  - simplify_eq. eauto.
  - destruct (server_step b l s) as [[s1 e1]|] eqn:E1; [|discriminate].
    destruct (server_exec b tr s1) as [[s2 e2]|] eqn:E2; [|discriminate].
    simplify_eq.
    destruct (server_step_keeps_done _ _ _ _ _ _ _ E1 Hr Hd) as (o1 & Hr1 & Hd1).
    eapply IH; eassumption.
Qed.

Lemma server_exec_drops_done b tr : forall s s' evs r,
  server_exec b tr s = Some (s', evs) ->
  Forall close_inv (objects s) ->
  r ∈ dropped_of evs ->
  exists o, objects s' !! r = Some o /\ worker_done o.
Proof.
  induction tr as [|l tr IH]; intros s s' evs r H Ho Hin; simpl in H.
  - simplify_eq. simpl in Hin. inversion Hin.
  - destruct (server_step b l s) as [[s1 e1]|] eqn:E1; [|discriminate].
    destruct (server_exec b tr s1) as [[s2 e2]|] eqn:E2; [|discriminate].
    simplify_eq.
    pose proof (server_step_keeps_objects _ _ _ _ _ E1 Ho) as Ho1.
    unfold dropped_of in Hin. rewrite omap_app in Hin.
    apply elem_of_app in Hin as [Hin | Hin].
    + destruct (server_step_drops_closed _ _ _ _ _ _ E1 Hin) as (o & tid & Hr & Hc).
      rewrite Forall_lookup in Ho1. destruct (Ho1 _ _ Hr) as (_ & _ & Hret).
      eapply server_exec_keeps_done; [exact E2 | exact Hr | exact (Hret tid Hc)].
    + eapply IH; eassumption.
Qed.

(** X11.  In every run of a server from its construction, a connection
    that [TCPServer::close] has removed from the queue of pending
    connections is closed for good: it is not open, its worker has left
    [run], and its socket was closed exactly once.  [close()] removes a
    pending connection only after the connection's own [close()] has
    returned. *)
Theorem dropped_connections_are_closed
    (b : backend) (tr : list server_label) (socket : Z)
    (s : server_sys) (evs : list event) (r : Reference) :
  server_exec b tr (new_server socket) = Some (s, evs) ->
  r ∈ dropped_of evs ->
  exists o,
    objects s !! r = Some o
    /\ isOpen (conn o) = false
    /\ wpc o = W_done
    /\ socket_closes o = 1%nat.
Proof.
  intros H Hin.
  assert (Forall close_inv (objects (new_server socket))) as Ho0 by constructor.
  destruct (server_exec_drops_done _ _ _ _ _ _ H Ho0 Hin) as (o & Hr & Hd).
  pose proof (server_exec_keeps_objects _ _ _ _ _ H Ho0) as Ho.
  rewrite Forall_lookup in Ho. destruct (Ho _ _ Hr) as (Hst & Hcl & _).
  unfold worker_done in Hd. rewrite Hd in Hst, Hcl.
  exists o. split; [exact Hr|]. split; [apply bool_decide_eq_false; exact Hst|].
  split; [exact Hd | exact Hcl].
Qed.

(** ** [TCPServer::close] *)

Lemma server_step_keeps_close_inv b l s s' evs :
  server_step b l s = Some (s', evs) ->
  server_close_inv s -> server_close_inv s'.
Proof.
  intros H (Hst & Hcl & Hret). destruct l; simpl in H.
  - assert (spc s <> S_done) as Hrun
      by (intros E; unfold server_worker_step in H; rewrite E in H; discriminate).
    assert (forall tid, closers s !! tid <> Some (SC_tail C_returned)) as Hnone
      by (intros tid E; apply Hrun, (Hret tid E)).
    unfold server_worker_step, push_new_connection, server_isOpen in H.
    destruct (spc s) eqn:Hpc; destruct b; try discriminate;
      server_cases H; simplify_eq; unfold server_close_inv; simpl in *;
      repeat split; simpl;
      repeat match goal with
             | |- context [if ?c then _ else _] => destruct c eqn:?
             end;
      simpl; rewrite ?Hpc;
      try (intros tid E; simpl in E; exfalso; exact (Hnone tid E));
      simpl; auto; try lia; try discriminate.
  - unfold server_close_step, server_isOpen, server_isActive in H.
    unfold server_close_inv.
    destruct (closers s !! tid) as [[| | |[]]|] eqn:Hc; simpl in H;
      server_cases H; simplify_eq; simpl.
    all: repeat split; auto.
    all: try (destruct (spc s); auto; discriminate).
    all: try (intros tid' E; destruct (decide (tid = tid')) as [->|Hne];
      [ rewrite lookup_insert_eq in E | rewrite lookup_insert_ne in E by exact Hne; eauto ];
      simplify_eq; eauto; fail).
  - server_cases H; simplify_eq.
    unfold getIncomingConnection in H.
    destruct (newConnectionsQueue (server s)); simplify_eq;
      unfold server_close_inv; simpl; auto.
  - server_cases H; simplify_eq. unfold server_close_inv. simpl. auto.
Qed.

Lemma server_exec_keeps_close_inv b tr : forall s s' evs,
  server_exec b tr s = Some (s', evs) ->
  server_close_inv s -> server_close_inv s'.
Proof.
  induction tr as [|l tr IH]; intros s s' evs H Hinv; simpl in H.
  - simplify_eq. exact Hinv.
  - destruct (server_step b l s) as [[s1 e1]|] eqn:E1; [|discriminate].
    destruct (server_exec b tr s1) as [[s2 e2]|] eqn:E2; [|discriminate].
    simplify_eq. eapply IH; [exact E2|]. eapply server_step_keeps_close_inv; eassumption.
Qed.

(** X12.  In every run of a server from its construction, once a thread
    has returned from [TCPServer::close] the server is not open, its
    worker has left [run], and the listening socket has been closed
    exactly once. *)
Theorem server_close_returns_with_worker_done
    (b : backend) (tr : list server_label) (socket : Z)
    (s : server_sys) (evs : list event) (tid : nat) :
  server_exec b tr (new_server socket) = Some (s, evs) ->
  closers s !! tid = Some (SC_tail C_returned) ->
  server_isOpen s = false
  /\ server_isActive s = false
  /\ spc s = S_done
  /\ server_socket_closes s = 1%nat.
Proof.
  intros Hrun Hret.
  assert (server_close_inv (new_server socket)) as H0.
  { unfold server_close_inv, new_server. simpl. repeat split; auto.
    intros t E. rewrite lookup_empty in E. discriminate. }
  destruct (server_exec_keeps_close_inv _ _ _ _ _ Hrun H0) as (Hst & Hcl & Hdone).
  pose proof (Hdone tid Hret) as Hpc. rewrite Hpc in Hst, Hcl.
  split; [apply bool_decide_eq_false; exact Hst|].
  split; [unfold server_isActive; rewrite Hpc; reflexivity|].
  split; [exact Hpc | exact Hcl].
Qed.

(** ** The end of [TCPServer::run] *)

Lemma server_step_towards_end b l s s' evs :
  serverState (server s) <> OPEN ->
  server_step b l s = Some (s', evs) ->
  serverState (server s') <> OPEN
  /\ ((if is_server_worker l then 1 else 0) + server_measure s' <= server_measure s)%nat.
Proof.
  intros Hno H.
  assert (server_isOpen s = false) as Hopen by (apply bool_decide_eq_false; exact Hno).
  destruct l; simpl in H; simpl is_server_worker; cbv iota.
  - unfold server_worker_step, push_new_connection in H. rewrite ?Hopen in H.
    unfold server_measure.
    destruct (spc s) eqn:Hpc; destruct b; try discriminate;
      server_cases H; simplify_eq; simpl;
      repeat match goal with
             | |- context [if ?c then _ else _] => destruct c eqn:?
             end;
      simpl; (split; [try discriminate; auto | lia]).
  - unfold server_close_step in H. unfold server_measure.
    destruct (closers s !! tid) as [[| | |[]]|] eqn:Hc; simpl in H;
      server_cases H; simplify_eq; simpl; (split; [try discriminate; auto | lia]).
  - server_cases H; simplify_eq. unfold getIncomingConnection in H.
    unfold server_measure.
    destruct (newConnectionsQueue (server s)); simplify_eq; simpl; auto.
  - server_cases H; simplify_eq. unfold server_measure. simpl. auto.
Qed.

(** X13.  Once the state of a server is not [OPEN], its worker is at most
    5 steps away from the end of [run], whatever [poll] and [accept]
    answer and whatever other threads do in between; the state does not
    become [OPEN] again. *)
Theorem server_worker_ends_after_close
    (b : backend) (tr : list server_label) (s s' : server_sys) (evs : list event) :
  serverState (server s) <> OPEN ->
  server_exec b tr s = Some (s', evs) ->
  serverState (server s') <> OPEN
  /\ (server_worker_steps tr + server_measure s' <= server_measure s)%nat
  /\ (server_measure s <= 5)%nat
  /\ (server_measure s' = 0%nat <-> spc s' = S_done).
Proof.
  intros Hno H.
  assert (serverState (server s') <> OPEN
          /\ (server_worker_steps tr + server_measure s' <= server_measure s)%nat) as [H1 H2].
  { revert s s' evs Hno H. induction tr as [|l tr IH]; intros s s' evs Hno H; simpl in H.
    - simplify_eq. simpl. split; [exact Hno | lia].
    - destruct (server_step b l s) as [[s1 e1]|] eqn:E1; [|discriminate].
      destruct (server_exec b tr s1) as [[s2 e2]|] eqn:E2; [|discriminate].
      simplify_eq.
      destruct (server_step_towards_end _ _ _ _ _ Hno E1) as [Hno1 Hm1].
      destruct (IH _ _ _ Hno1 E2) as [Hno2 Hm2].
      split; [exact Hno2|]. simpl. destruct (is_server_worker l); simpl in *; lia. }
  split; [exact H1|]. split; [exact H2|]. split.
  - unfold server_measure. destruct (spc s); lia.
  - unfold server_measure. destruct (spc s'); split; intros E; try discriminate; try lia; auto.
Qed.

(** ** [SDLNet_TCP_Accept] *)

Lemma step_keeps_socket_sdl l o o' :
  step SDL2_NET l o = Some o' -> tcpSocket (conn o') = tcpSocket (conn o).
Proof.
  intros H. destruct (step_fields _ _ _ _ H) as (_ & [E | (E & _)] & _);
    [exact E | discriminate E].
Qed.

Lemma sdl_server_step_sockets l s s' evs :
  server_step SDL2_NET l s = Some (s', evs) ->
  Forall (fun o => tcpSocket (conn o) <> 0) (objects s) ->
  Forall (fun o => tcpSocket (conn o) <> 0) (objects s').
Proof.
  intros H Ho. destruct l; simpl in H.
  - unfold server_worker_step, push_new_connection in H.
    destruct (spc s); try discriminate;
      server_cases H; simplify_eq; simpl; auto;
      (apply Forall_app_2; [exact Ho|]);
      (apply Forall_cons_2; [simpl; assumption | apply Forall_nil_2]).
  - unfold server_close_step in H.
    destruct (closers s !! tid) as [[| | |[]]|]; simpl in H;
      server_cases H; simplify_eq; simpl; auto;
      apply Forall_insert; auto;
      match goal with
      | E : close_step _ ?o = Some _, L : objects _ !! _ = Some ?o |- _ =>
        rewrite (close_step_is_step SDL2_NET) in E;
        rewrite (step_keeps_socket_sdl _ _ _ E);
        rewrite Forall_lookup in Ho; exact (Ho _ _ L)
      end.
  - server_cases H; simplify_eq.
    destruct (getIncomingConnection (server s)). simplify_eq. exact Ho.
  - server_cases H; simplify_eq. simpl. apply Forall_insert; auto.
    match goal with
    | E : step _ _ ?o = Some _, L : objects _ !! _ = Some ?o |- _ =>
      rewrite (step_keeps_socket_sdl _ _ _ E);
      rewrite Forall_lookup in Ho; exact (Ho _ _ L)
    end.
Qed.

(** X14.  With SDL2_net the worker of a server checks what
    [SDLNet_TCP_Accept] returned: in every run from the construction of
    the server, no connection that it has created, pending or fetched,
    has a null socket. *)
Theorem sdl_server_queues_no_null_socket
    (tr : list server_label) (socket : Z) (s : server_sys) (evs : list event) :
  server_exec SDL2_NET tr (new_server socket) = Some (s, evs) ->
  Forall (fun o => tcpSocket (conn o) <> 0) (objects s).
Proof.
  assert (forall tr s0 s1 evs,
            server_exec SDL2_NET tr s0 = Some (s1, evs) ->
            Forall (fun o => tcpSocket (conn o) <> 0) (objects s0) ->
            Forall (fun o => tcpSocket (conn o) <> 0) (objects s1)) as Hrun.
  { clear. induction tr as [|l tr IH]; intros s0 s1 evs H Ho; simpl in H.
    - simplify_eq. exact Ho.
    - destruct (server_step SDL2_NET l s0) as [[s2 e1]|] eqn:E1; [|discriminate].
      destruct (server_exec SDL2_NET tr s2) as [[s3 e2]|] eqn:E2; [|discriminate].
      simplify_eq. eapply IH; [exact E2|]. eapply sdl_server_step_sockets; eassumption. }
  intros H. apply (Hrun _ _ _ _ H). constructor.
Qed.

(** * The unlocked reads of the counter *)

(** X15.  The receive functions look at [inQueueDataSize] before they take
    the lock.  Whatever that unlocked read saw, a call does what the same
    call does when the read is up to date, or it returns nothing and
    leaves the connection as it is; it never returns or removes anything
    else. *)
Theorem stale_counter_read_is_harmless
    (c : TCPConnection) (hint n : Z) (delimiter : uint8_t) :
  0 <= inQueueDataSize c ->
  (receiveData_all_hinted hint c = receiveData_all c
   \/ receiveData_all_hinted hint c = ([], c))
  /\ (receiveData_hinted hint n c = receiveData n c
      \/ receiveData_hinted hint n c = ([], c))
  /\ (receiveString_hinted hint delimiter c = receiveString delimiter c
      \/ receiveString_hinted hint delimiter c = (EmptyString, c)).
Proof.
  intros Hnn. split; [|split].
  - unfold receiveData_all, receiveData_all_hinted.
    destruct (bool_decide_reflect (hint > 0)); [|right; reflexivity].
    destruct (bool_decide_reflect (inQueueDataSize c > 0)); [left; reflexivity|].
    right. apply extractDataFromInQueue_none. left. lia.
  - apply receiveData_hinted_cases.
  - unfold receiveString, receiveString_hinted.
    destruct (bool_decide_reflect (hint = 0)); [right; reflexivity|].
    destruct (bool_decide_reflect (inQueueDataSize c = 0)) as [Hz|]; [|left; reflexivity].
    right. destruct (scan_queue delimiter (inQueue c) 0 false) as [pos [|]]; [|reflexivity].
    rewrite extractDataFromInQueue_none; [reflexivity|].
    pose proof (size_t_add_nonneg pos 1) as Hp.
    destruct (decide (size_t_add pos 1 = 0)) as [E|E]; [left; exact E | right; lia].
Qed.

(** * The further theorems at the examples *)

Lemma receiveData_all_drains_witness :
  inQueue_inv example_conn
  /\ (receiveData_all example_conn).1 = queue_bytes (inQueue example_conn)
  /\ inQueueDataSize (receiveData_all example_conn).2 = 0.
Proof.
  assert (inQueue_inv example_conn) as Hi by (split; vm_compute; reflexivity).
  split; [exact Hi|].
  destruct (receiveData_all_drains example_conn Hi) as (H1 & _ & H2 & _).
  split; [exact H1 | exact H2].
Defined.

Lemma receiveData_twice_witness :
  inQueue_inv example_conn
  /\ (receiveData 1 example_conn).1
       ++ (receiveData 2 (receiveData 1 example_conn).2).1
     = (receiveData (1 + 2) example_conn).1.
Proof.
  assert (inQueue_inv example_conn) as Hi by (split; vm_compute; reflexivity).
  split; [exact Hi|].
  apply (receiveData_twice example_conn 1 2 Hi); [lia | lia | vm_compute; congruence].
Defined.



Lemma worker_ends_after_close_witness :
  state (conn closing_system) <> OPEN
  /\ place_of_backend POSIX (wpc closing_system)
  /\ exec POSIX closing_run closing_system = Some after_closing_run
  /\ (worker_steps closing_run + worker_measure after_closing_run
      <= worker_measure closing_system)%nat.
Proof.
  assert (state (conn closing_system) <> OPEN) as Hno by (vm_compute; congruence).
  assert (place_of_backend POSIX (wpc closing_system)) as Hp by exact I.
  assert (exec POSIX closing_run closing_system = Some after_closing_run) as Hrun
    by (vm_compute; reflexivity).
  split; [exact Hno|]. split; [exact Hp|]. split; [exact Hrun|].
  exact (proj1 (worker_ends_after_close POSIX closing_run _ _ Hno Hp Hrun)).
Defined.

Lemma address_and_socket_are_stable_witness :
  exec POSIX close_run (new_system 5 loopback) = Some after_close_run
  /\ remoteIp (conn after_close_run) = loopback
  /\ tcpSocket (conn after_close_run) = socket_field POSIX 5 (wpc after_close_run).
Proof.
  assert (exec POSIX close_run (new_system 5 loopback) = Some after_close_run) as Hrun
    by (vm_compute; reflexivity).
  split; [exact Hrun|].
  exact (address_and_socket_are_stable POSIX close_run 5 loopback _ Hrun).
Defined.

Lemma lastActiveTime_changes_on_receive_only_witness :
  step POSIX (L_worker (OS_recv 3 [x61; x62; x63; x00] 0 7)) posix_reading = Some after_read
  /\ lastActiveTime (conn after_read) <> lastActiveTime (conn posix_reading)
  /\ exists a, L_worker (OS_recv 3 [x61; x62; x63; x00] 0 7) = L_worker a.
Proof.
  assert (step POSIX (L_worker (OS_recv 3 [x61; x62; x63; x00] 0 7)) posix_reading
          = Some after_read) as Hstep by (vm_compute; reflexivity).
  assert (lastActiveTime (conn after_read) <> lastActiveTime (conn posix_reading)) as Hne
    by (vm_compute; congruence).
  split; [exact Hstep|]. split; [exact Hne|].
  destruct (lastActiveTime_changes_on_receive_only POSIX _ _ _ Hstep Hne) as (a & Ha & _).
  exists a. exact Ha.
Defined.

Lemma only_calls_past_the_test_append_after_close_witness :
  state (conn closing_system) <> OPEN
  /\ exec POSIX closing_run closing_system = Some after_closing_run
  /\ (length (collect enqueued_by POSIX closing_run closing_system)
      + size (senders after_closing_run) = size (senders closing_system))%nat
  /\ sendData [x64] (conn after_closing_run) = (false, conn after_closing_run).
Proof.
  assert (state (conn closing_system) <> OPEN) as Hno by (vm_compute; congruence).
  assert (exec POSIX closing_run closing_system = Some after_closing_run) as Hrun
    by (vm_compute; reflexivity).
  split; [exact Hno|]. split; [exact Hrun|].
  destruct (only_calls_past_the_test_append_after_close
              POSIX closing_run _ _ 2%nat [x64] EmptyString Hno Hrun)
    as (_ & _ & H1 & _ & _ & H2).
  split; [exact H1 | exact H2].
Defined.

Lemma worker_past_loop_sends_nothing_witness :
  past_loop (wpc leaving_system)
  /\ exec POSIX leaving_run leaving_system = Some after_leaving_run
  /\ collect popped_by POSIX leaving_run leaving_system = []
  /\ outQueue (conn after_leaving_run)
     = outQueue (conn leaving_system) ++ collect enqueued_by POSIX leaving_run leaving_system.
Proof.
  assert (past_loop (wpc leaving_system)) as Hp by exact I.
  assert (exec POSIX leaving_run leaving_system = Some after_leaving_run) as Hrun
    by (vm_compute; reflexivity).
  split; [exact Hp|]. split; [exact Hrun|].
  exact (proj2 (worker_past_loop_sends_nothing POSIX leaving_run _ _ Hp Hrun)).
Defined.

Lemma no_empty_chunk_in_inQueue_witness :
  sys_inv example_system
  /\ chunks_nonempty (conn example_system)
  /\ chunks_nonempty (conn (with_conn (receiveData 3 example_conn).2 example_system)).
Proof.
  assert (sys_inv example_system) as Hs
    by (split; [split; vm_compute; reflexivity | exact I]).
  assert (chunks_nonempty (conn example_system)) as Hc
    by (repeat constructor; discriminate).
  split; [exact Hs|]. split; [exact Hc|].
  apply (no_empty_chunk_in_inQueue POSIX (L_receiveData 4 3) example_system
           (with_conn (receiveData 3 example_conn).2 example_system) Hs Hc).
  - vm_compute. reflexivity.
  - vm_compute. reflexivity.
Defined.

Lemma dropped_connections_are_closed_witness :
  server_exec POSIX server_close_run (new_server 4) = Some after_server_close_run
  /\ 1%nat ∈ dropped_of after_server_close_run.2
  /\ exists o, objects after_server_close_run.1 !! 1%nat = Some o
               /\ isOpen (conn o) = false.
Proof.
  assert (server_exec POSIX server_close_run (new_server 4) = Some after_server_close_run)
    as Hrun by (vm_compute; reflexivity).
  assert (1%nat ∈ dropped_of after_server_close_run.2) as Hin
    by (vm_compute; apply list_elem_of_here).
  split; [exact Hrun|]. split; [exact Hin|].
  destruct (dropped_connections_are_closed POSIX server_close_run 4
              after_server_close_run.1 after_server_close_run.2 1%nat Hrun Hin)
    as (o & H1 & H2 & _).
  exists o. split; [exact H1 | exact H2].
Defined.

Lemma server_close_returns_with_worker_done_witness :
  server_exec POSIX server_close_run (new_server 4) = Some after_server_close_run
  /\ closers after_server_close_run.1 !! 1%nat = Some (SC_tail C_returned)
  /\ server_isOpen after_server_close_run.1 = false
  /\ server_socket_closes after_server_close_run.1 = 1%nat.
Proof.
  assert (server_exec POSIX server_close_run (new_server 4) = Some after_server_close_run)
    as Hrun by (vm_compute; reflexivity).
  assert (closers after_server_close_run.1 !! 1%nat = Some (SC_tail C_returned)) as Hret
    by (vm_compute; reflexivity).
  split; [exact Hrun|]. split; [exact Hret|].
  destruct (server_close_returns_with_worker_done POSIX server_close_run 4
              after_server_close_run.1 after_server_close_run.2 1%nat Hrun Hret)
    as (H1 & _ & _ & H2).
  split; [exact H1 | exact H2].
Defined.

Lemma server_worker_ends_after_close_witness :
  serverState (server closing_server) <> OPEN
  /\ server_exec POSIX closing_server_run closing_server = Some after_closing_server_run
  /\ (server_worker_steps closing_server_run + server_measure after_closing_server_run.1
      <= server_measure closing_server)%nat.
Proof.
  assert (serverState (server closing_server) <> OPEN) as Hno by (vm_compute; congruence).
  assert (server_exec POSIX closing_server_run closing_server
          = Some after_closing_server_run) as Hrun by (vm_compute; reflexivity).
  split; [exact Hno|]. split; [exact Hrun|].
  exact (proj1 (proj2 (server_worker_ends_after_close POSIX closing_server_run
                         closing_server after_closing_server_run.1
                         after_closing_server_run.2 Hno Hrun))).
Defined.

Lemma sdl_server_queues_no_null_socket_witness :
  server_exec SDL2_NET sdl_server_run (new_server 4) = Some after_sdl_server_run
  /\ Forall (fun o => tcpSocket (conn o) <> 0) (objects after_sdl_server_run.1).
Proof.
  assert (server_exec SDL2_NET sdl_server_run (new_server 4) = Some after_sdl_server_run)
    as Hrun by (vm_compute; reflexivity).
  split; [exact Hrun|].
  exact (sdl_server_queues_no_null_socket sdl_server_run 4
           after_sdl_server_run.1 after_sdl_server_run.2 Hrun).
Defined.

Lemma stale_counter_read_is_harmless_witness :
  0 <= inQueueDataSize example_conn
  /\ (receiveData_hinted 1 3 example_conn = receiveData 3 example_conn
      \/ receiveData_hinted 1 3 example_conn = ([], example_conn)).
Proof.
  assert (0 <= inQueueDataSize example_conn) as Hnn by (vm_compute; congruence).
  split; [exact Hnn|].
  exact (proj1 (proj2 (stale_counter_read_is_harmless example_conn 1 3 x00 Hnn))).
Defined.
